(** * pongo2: execution contexts and scoped variable stores (context.go)

    A shallow embedding of [context.go].  Go maps are reference objects, so
    the stores live in an explicit heap: a [mapContext] is a (possibly nil)
    reference to a map object, a [mergedContext] is a struct of two
    interface values, and an [*ExecutionContext] is a reference to a struct
    object.  Package-level variables ([autoescape]) are fields of the
    program state.  A Go panic (nil dereference, write to a nil map) is the
    result [None]. *)

From stdpp Require Import gmap strings list fin_maps.
From Stdlib Require Import ZArith Ascii.

Local Open Scope string_scope.
Local Open Scope list_scope.

(** ** Data model *)

(** Heap addresses. *)
Abbreviation loc := positive (only parsing).

(** [interface{}] values that the stores hold.  [VMap m] is a [mapContext]
    boxed in an interface: the map reference itself, not a copy. *)
Inductive value : Type :=
  | VNil
  | VBool (b : bool)
  | VInt (z : Z)
  | VStr (s : string)
  | VMap (m : option loc).

(** The [context] interface: the nil interface, a [mapContext] (a map
    reference, [None] for the nil map) or a [mergedContext] struct. *)
Inductive context : Type :=
  | ctxNil
  | ctxMap (m : option loc)
  | ctxMerged (a b : context).

(** Modelled from the spec: the [Template] struct is declared outside
    context.go; the fields read here are [name] and [set]. *)
Record Template : Type := mkTemplate {
  name : string;
  tset : option loc
}.

(** Modelled from the spec: the [Token] struct is declared outside
    context.go; it exposes source filename, line and column. *)
Record Token : Type := mkToken {
  Filename : string;
  Line : Z;
  Col : Z
}.

Record ExecutionContext : Type := mkExecutionContext {
  template : option loc;
  macroDepth : Z;
  Autoescape : bool;
  Public : context;
  Private : context;
  Shared : context
}.

(** [error] values built by [errors.New] and [fmt.Errorf]. *)
Inductive error : Type :=
  | errorString (msg : string).

(** Modelled from the spec: the [Error] struct is declared outside
    context.go; these are the fields the composite literals of context.go
    set, with Go's zero values for the fields a literal leaves out. *)
Record Error : Type := mkError {
  ErrTemplate : option loc;
  ErrFilename : string;
  ErrLine : Z;
  ErrColumn : Z;
  ErrToken : option Token;
  Sender : string;
  OrigErr : option error
}.

(** Program state: the map objects, the template objects, the
    [ExecutionContext] objects and the package variable [autoescape]. *)
Record state : Type := mkState {
  maps : gmap positive (gmap string value);
  templates : gmap positive Template;
  ectxs : gmap positive ExecutionContext;
  autoescape : bool
}.

Definition with_maps (s : state) (ms : gmap positive (gmap string value)) : state :=
  mkState ms (templates s) (ectxs s) (autoescape s).

Definition with_ectxs (s : state) (es : gmap positive ExecutionContext) : state :=
  mkState (maps s) (templates s) es (autoescape s).

(** ** Package variables *)

(** [func SetAutoescape(newValue bool)] *)
Definition SetAutoescape (s : state) (newValue : bool) : state :=
  mkState (maps s) (templates s) (ectxs s) newValue.

(** [var pongo2MetaContext = mapContext{"version": Version}]: one map object
    made at package initialisation.  No statement of context.go assigns the
    variable again, so it is the constant reference to that object. *)
Definition pongo2MetaLoc : positive := 1%positive.
Definition pongo2MetaContext : option loc := Some pongo2MetaLoc.

(** The state after package initialisation.  [Version] is a string
    constant declared outside context.go. *)
Definition init_state (Version : string) : state :=
  mkState {[ pongo2MetaLoc := {[ "version" := VStr Version ]} ]} ∅ ∅ true.

(** ** mapContext *)

(** [func (m mapContext) GetValue(key string) (interface{}, bool)]:
    reading a nil map yields the zero value and [false]. *)
Definition mapContext_GetValue (s : state) (m : option loc) (key : string)
  : option (value * bool) :=
  match m with
  | None => Some (VNil, false)
  | Some l =>
      o ← maps s !! l;
      Some (match (o : gmap string value) !! key with
            | Some v => (v, true)
            | None => (VNil, false)
            end)
  end.

(** [func (m mapContext) SetValue(key string, val interface{})]:
    [m[key] = val] panics on a nil map. *)
Definition mapContext_SetValue (s : state) (m : option loc) (key : string)
    (val : value) : option state :=
  match m with
  | None => None
  | Some l =>
      o ← maps s !! l;
      Some (with_maps s (<[l := <[key := val]> (o : gmap string value)]> (maps s)))
  end.

(** [make]/composite literal of a map: a new map object at an unused
    address. *)
Definition alloc_map (s : state) (o : gmap string value) : positive * state :=
  let l := fresh (dom (maps s)) in
  (l, with_maps s (<[l := o]> (maps s))).

(** ** mergedContext and the context interface *)

(** [func mergeContexts(a, b context) context] *)
Definition mergeContexts (a b : context) : context := ctxMerged a b.

(** Dynamic dispatch of [GetValue]; the [ctxMerged] case is
    [mergedContext.GetValue]. *)
Fixpoint GetValue (s : state) (c : context) (key : string)
  : option (value * bool) :=
  match c with
  | ctxNil => None
  | ctxMap m => mapContext_GetValue s m key
  | ctxMerged a b =>
      '(val, had) ← GetValue s b key;
      if negb had then GetValue s a key else Some (val, had)
  end.

(** Dynamic dispatch of [SetValue]; the [ctxMerged] case is
    [mergedContext.SetValue]. *)
Fixpoint SetValue (s : state) (c : context) (key : string) (val : value)
  : option state :=
  match c with
  | ctxNil => None
  | ctxMap m => mapContext_SetValue s m key val
  | ctxMerged a b => SetValue s b key val
  end.

(** [GetIdentifiers]: Go iterates a map in an unspecified order, which may
    differ from one loop to the next, so the result is a relation.
    [mergedContext.GetIdentifiers] calls each side twice: once for the
    length test and once for the elements appended. *)
Inductive GetIdentifiers (s : state) : context → list string → Prop :=
  | GetIdentifiers_nilmap :
      GetIdentifiers s (ctxMap None) []
  | GetIdentifiers_map l (o : gmap string value) ids :
      maps s !! l = Some o →
      ids ≡ₚ (map_to_list o).*1 →
      GetIdentifiers s (ctxMap (Some l)) ids
  | GetIdentifiers_merged a b la la' lb lb' :
      GetIdentifiers s a la → GetIdentifiers s a la' →
      GetIdentifiers s b lb → GetIdentifiers s b lb' →
      GetIdentifiers s (ctxMerged a b)
        (([] ++ (if decide (0 < length la)%nat then la' else []))
            ++ (if decide (0 < length lb)%nat then lb' else [])).

(** One admissible iteration order, as a function. *)
Fixpoint GetIdentifiers_run (s : state) (c : context) : option (list string) :=
  match c with
  | ctxNil => None
  | ctxMap None => Some []
  | ctxMap (Some l) => o ← maps s !! l; Some ((map_to_list (o : gmap string value)).*1)
  | ctxMerged a b =>
      la ← GetIdentifiers_run s a;
      lb ← GetIdentifiers_run s b;
      Some (([] ++ (if decide (0 < length la)%nat then la else []))
              ++ (if decide (0 < length lb)%nat then lb else []))
  end.

(** ** Context.Update *)

(** The loop [for k, v := range other { c[k] = v }] over the entries of
    [other] in the order [kvs] in which the iteration yields them. *)
Fixpoint Update_loop (s : state) (c : option loc) (kvs : list (string * value))
  : option state :=
  match kvs with
  | [] => Some s
  | (k, v) :: rest =>
      s' ← mapContext_SetValue s c k v;
      Update_loop s' c rest
  end.

(** The entries a [range] over the map [m] visits: none for the nil map. *)
Definition range_entries (s : state) (m : option loc)
  : option (gmap string value) :=
  match m with
  | None => Some ∅
  | Some l => maps s !! l
  end.

(** [func (c Context) Update(other Context) Context], for the iteration
    order [order] that the runtime picks for the entries of [other]. *)
Definition Update_ordered (order : gmap string value → list (string * value))
    (s : state) (c other : option loc) : option (option loc * state) :=
  o ← range_entries s other;
  s' ← Update_loop s c (order o);
  Some (c, s').

Definition Update : state → option loc → option loc → option (option loc * state) :=
  Update_ordered map_to_list.

(** ** The identifier pattern *)

(** The fragment of Go's regexp syntax that [reIdentifiers] uses, matched
    with derivatives.  A byte outside ASCII belongs to no class of the
    pattern, as the rune it is part of belongs to none. *)
Inductive re : Type :=
  | ReNone
  | ReEps
  | ReClass (ranges : list (ascii * ascii))
  | ReCat (r1 r2 : re)
  | ReAlt (r1 r2 : re)
  | ReStar (r : re)
  | RePlus (r : re).

Definition in_range (c : ascii) (rg : ascii * ascii) : bool :=
  (N_of_ascii rg.1 <=? N_of_ascii c)%N && (N_of_ascii c <=? N_of_ascii rg.2)%N.

Definition in_class (ranges : list (ascii * ascii)) (c : ascii) : bool :=
  existsb (in_range c) ranges.

Fixpoint nullable (r : re) : bool :=
  match r with
  | ReNone => false
  | ReEps => true
  | ReClass _ => false
  | ReCat r1 r2 => nullable r1 && nullable r2
  | ReAlt r1 r2 => nullable r1 || nullable r2
  | ReStar _ => true
  | RePlus r => nullable r
  end.

Fixpoint deriv (c : ascii) (r : re) : re :=
  match r with
  | ReNone => ReNone
  | ReEps => ReNone
  | ReClass ranges => if in_class ranges c then ReEps else ReNone
  | ReCat r1 r2 =>
      if nullable r1 then ReAlt (ReCat (deriv c r1) r2) (deriv c r2)
      else ReCat (deriv c r1) r2
  | ReAlt r1 r2 => ReAlt (deriv c r1) (deriv c r2)
  | ReStar r => ReCat (deriv c r) (ReStar r)
  | RePlus r => ReCat (deriv c r) (ReStar r)
  end.

(** [r] matches the whole of [t]. *)
Fixpoint match_all (r : re) (t : string) : bool :=
  match t with
  | EmptyString => nullable r
  | String c t' => match_all (deriv c r) t'
  end.

(** [r] matches a prefix of [t]. *)
Fixpoint match_prefix (r : re) (t : string) : bool :=
  nullable r ||
  match t with
  | EmptyString => false
  | String c t' => match_prefix (deriv c r) t'
  end.

(** [f] holds of some suffix of [t]. *)
Fixpoint match_somewhere (f : string → bool) (t : string) : bool :=
  f t ||
  match t with
  | EmptyString => false
  | String _ t' => match_somewhere f t'
  end.

(** A compiled pattern: [^] and [$] (without the multi-line flag: start and
    end of the text) around a body. *)
Record Regexp : Type := mkRegexp {
  beginText : bool;
  body : re;
  endText : bool
}.

(** [func (re *Regexp) MatchString(s string) bool]: does the text contain a
    match. *)
Definition MatchString (p : Regexp) (t : string) : bool :=
  let here := if endText p then match_all (body p) else match_prefix (body p) in
  if beginText p then here t else match_somewhere here t.

(** [var reIdentifiers = regexp.MustCompile("^[a-zA-Z0-9_]+$")] *)
Definition reIdentifiers : Regexp :=
  mkRegexp true
    (RePlus (ReClass [("a", "z"); ("A", "Z"); ("0", "9"); ("_", "_")]%char))
    true.

(** [fmt.Errorf("context-key '%s' is not a valid identifier", v)] *)
Definition invalid_identifier_error (v : string) : error :=
  errorString ("context-key '" +:+ v +:+ "' is not a valid identifier").

(** [func checkForValidIdentifiers(identifiers []string) *Error]; [None]
    is the nil result. *)
Fixpoint checkForValidIdentifiers (identifiers : list string) : option Error :=
  match identifiers with
  | [] => None
  | v :: rest =>
      if negb (MatchString reIdentifiers v) then
        Some (mkError None "" 0 0 None "checkForValidIdentifiers"
                (Some (invalid_identifier_error v)))
      else checkForValidIdentifiers rest
  end.

(** ** ExecutionContext *)

(** [&ExecutionContext{...}]: a new struct object at an unused address. *)
Definition alloc_ectx (s : state) (e : ExecutionContext) : positive * state :=
  let p := fresh (dom (ectxs s)) in
  (p, with_ectxs s (<[p := e]> (ectxs s))).

(** [func newExecutionContext(tpl *Template, ctx context) *ExecutionContext] *)
Definition newExecutionContext (s : state) (tpl : option loc) (ctx : context)
  : positive * state :=
  let '(privateCtx, s1) := alloc_map s {[ "pongo2" := VMap pongo2MetaContext ]} in
  let '(overlay, s2) := alloc_map s1 ∅ in
  alloc_ectx s2
    {| template := tpl;
       macroDepth := 0;
       Public := mergeContexts ctx (ctxMap (Some overlay));
       Private := ctxMap (Some privateCtx);
       Autoescape := autoescape s2;
       Shared := ctxNil |}.

(** The assignment [p.Shared = c] to a field of the struct [p] points to. *)
Definition set_Shared (s : state) (p : option loc) (c : context) : option state :=
  l ← p;
  e ← ectxs s !! l;
  Some (with_ectxs s
          (<[l := mkExecutionContext (template e) (macroDepth e) (Autoescape e)
                    (Public e) (Private e) c]> (ectxs s))).

(** The assignment [p.Autoescape = b]. *)
Definition set_Autoescape (s : state) (p : option loc) (b : bool) : option state :=
  l ← p;
  e ← ectxs s !! l;
  Some (with_ectxs s
          (<[l := mkExecutionContext (template e) (macroDepth e) b
                    (Public e) (Private e) (Shared e)]> (ectxs s))).

(** [func NewChildExecutionContext(parent *ExecutionContext) *ExecutionContext];
    a nil [parent] panics at [parent.template]. *)
Definition NewChildExecutionContext (s : state) (parent : option loc)
  : option (positive * state) :=
  l ← parent;
  e ← ectxs s !! l;
  let '(overlay, s1) := alloc_map s ∅ in
  let '(newctx, s2) :=
    alloc_ectx s1
      {| template := template e;
         macroDepth := 0;
         Public := Public e;
         Private := mergeContexts (Private e) (ctxMap (Some overlay));
         Autoescape := Autoescape e;
         Shared := ctxNil |} in
  e' ← ectxs s2 !! l;
  s3 ← set_Shared s2 (Some newctx) (Shared e');
  Some (newctx, s3).

(** [func (ctx *ExecutionContext) OrigError(err error, token *Token) *Error].
    The function never returns nil; [None] is a panic, at
    [ctx.template.name] when [ctx] or its template is nil. *)
Definition OrigError (s : state) (ctx : option loc) (err : option error)
    (token : option Token) : option Error :=
  l ← ctx;
  e ← ectxs s !! l;
  tp ← template e;
  tpl ← templates s !! tp;
  let filename := name tpl in
  let '(filename, line, col) :=
    match token with
    | Some t => (Filename t, Line t, Col t)
    | None => (filename, 0%Z, 0%Z)
    end in
  Some {| ErrTemplate := template e;
          ErrFilename := filename;
          ErrLine := line;
          ErrColumn := col;
          ErrToken := token;
          Sender := "execution";
          OrigErr := err |}.

(** [func (ctx *ExecutionContext) Error(msg string, token *Token) *Error] *)
Definition ExecutionContext_Error (s : state) (ctx : option loc) (msg : string)
    (token : option Token) : option Error :=
  OrigError s ctx (Some (errorString msg)) token.

(** ** Reference notions the properties are stated with *)

(** The words matched by a pattern body. *)
Inductive re_lang : re → string → Prop :=
  | lang_eps : re_lang ReEps ""
  | lang_class ranges c :
      in_class ranges c = true → re_lang (ReClass ranges) (String c "")
  | lang_cat r1 r2 t1 t2 :
      re_lang r1 t1 → re_lang r2 t2 → re_lang (ReCat r1 r2) (t1 +:+ t2)
  | lang_alt_l r1 r2 t : re_lang r1 t → re_lang (ReAlt r1 r2) t
  | lang_alt_r r1 r2 t : re_lang r2 t → re_lang (ReAlt r1 r2) t
  | lang_star_nil r : re_lang (ReStar r) ""
  | lang_star_more r t1 t2 :
      re_lang r t1 → re_lang (ReStar r) t2 → re_lang (ReStar r) (t1 +:+ t2)
  | lang_plus r t1 t2 :
      re_lang r t1 → re_lang (ReStar r) t2 → re_lang (RePlus r) (t1 +:+ t2).

(** A letter, a digit or the underscore, by character code. *)
Definition ident_char (c : ascii) : Prop :=
  let n := N_of_ascii c in
  (97 ≤ n ≤ 122 ∨ 65 ≤ n ≤ 90 ∨ 48 ≤ n ≤ 57 ∨ n = 95)%N.

(** A well-formed identifier: not empty, identifier characters only. *)
Definition valid_identifier (v : string) : Prop :=
  v ≠ "" ∧ Forall ident_char (String.list_ascii_of_string v).

(** The error [checkForValidIdentifiers] builds for the name [v]. *)
Definition validation_error (v : string) : Error :=
  mkError None "" 0 0 None "checkForValidIdentifiers"
    (Some (errorString ("context-key '" +:+ v +:+ "' is not a valid identifier"))).

(** The map objects a context refers to. *)
Fixpoint locs (c : context) : gset positive :=
  match c with
  | ctxNil => ∅
  | ctxMap None => ∅
  | ctxMap (Some l) => {[ l ]}
  | ctxMerged a b => locs a ∪ locs b
  end.

(** The map object that a [SetValue] through [c] assigns to, if any. *)
Fixpoint write_target (c : context) : option loc :=
  match c with
  | ctxNil => None
  | ctxMap m => m
  | ctxMerged a b => write_target b
  end.

(** Every reference held by [c] points to a map object of [s]; Go's
    memory safety makes this hold of every context a program can hold. *)
Definition closed (s : state) (c : context) : Prop :=
  locs c ⊆ dom (maps s).

(** A sequence of writes through one context. *)
Fixpoint SetValues (s : state) (c : context) (kvs : list (string * value))
  : option state :=
  match kvs with
  | [] => Some s
  | (k, v) :: rest => s' ← SetValue s c k v; SetValues s' c rest
  end.

(** The three store slots of an [ExecutionContext]. *)
Inductive slot : Type := SlotPublic | SlotPrivate | SlotShared.

Definition slot_of (e : ExecutionContext) (sl : slot) : context :=
  match sl with
  | SlotPublic => Public e
  | SlotPrivate => Private e
  | SlotShared => Shared e
  end.

(** A render tree: the scopes derived from [root] by
    [NewChildExecutionContext], with writes through the stores of its
    scopes in between. *)
Inductive render_tree (root : positive) : state → list positive → Prop :=
  | tree_root s :
      is_Some (ectxs s !! root) → render_tree root s [root]
  | tree_child s T p c s' :
      render_tree root s T → p ∈ T →
      NewChildExecutionContext s (Some p) = Some (c, s') →
      render_tree root s' (c :: T)
  | tree_write s T p e sl k v s' :
      render_tree root s T → p ∈ T →
      ectxs s !! p = Some e →
      SetValue s (slot_of e sl) k v = Some s' →
      render_tree root s' T.




(** A context that holds no nil interface (nil maps are allowed). *)
Fixpoint no_nil_interface (c : context) : Prop :=
  match c with
  | ctxNil => False
  | ctxMap _ => True
  | ctxMerged a b => no_nil_interface a ∧ no_nil_interface b
  end.

(** The number of overlays stacked on the innermost base of a view. *)
Fixpoint overlay_depth (c : context) : nat :=
  match c with
  | ctxMerged a _ => S (overlay_depth a)
  | _ => 0
  end.

(** [descends s p s' d n]: [d] is reached from [p] by [n] nested calls of
    [NewChildExecutionContext], each on the scope the previous one made;
    the calls take the state [s] to [s']. *)
Inductive descends : state → positive → state → positive → nat → Prop :=
  | descends_here s p : descends s p s p 0
  | descends_child s p s1 c s2 d n :
      NewChildExecutionContext s (Some p) = Some (c, s1) →
      descends s1 c s2 d n →
      descends s p s2 d (S n).

(** The number of flat stores inside [c] that bind the name [k], each
    counted as often as the view holds it. *)
Fixpoint occurrences (s : state) (c : context) (k : string) : nat :=
  match c with
  | ctxNil => 0
  | ctxMap None => 0
  | ctxMap (Some l) =>
      match maps s !! l with
      | Some o => if decide (is_Some ((o : gmap string value) !! k)) then 1 else 0
      | None => 0
      end
  | ctxMerged a b => occurrences s a k + occurrences s b k
  end.

(** ** Running the definitions *)

(** A state with the metadata map, a template and two stores:
    [{a:1}] at address 2 and [{a:2, b:3}] at address 3. *)
Definition demo_state : state :=
  mkState
    {[ 1%positive := {[ "version" := VStr "dev" ]};
       2%positive := {[ "a" := VInt 1 ]};
       3%positive := <[ "a" := VInt 2 ]> {[ "b" := VInt 3 ]} ]}
    {[ 1%positive := mkTemplate "index.html" None ]}
    ∅ true.

Definition demo_base : context := ctxMap (Some 2%positive).
Definition demo_overlay : context := ctxMap (Some 3%positive).

(** A root scope over [demo_base], the struct it allocates, a child of it
    and the child's struct. *)
Definition demo_root : positive * state :=
  newExecutionContext demo_state (Some 1%positive) demo_base.

Definition demo_root_ctx : ExecutionContext :=
  mkExecutionContext (Some 1%positive) 0 true
    (ctxMerged demo_base (ctxMap (Some 5%positive)))
    (ctxMap (Some 4%positive)) ctxNil.

Definition demo_child_state : state :=
  default demo_state (snd <$> NewChildExecutionContext demo_root.2 (Some demo_root.1)).

Definition demo_child_ctx : ExecutionContext :=
  mkExecutionContext (Some 1%positive) 0 true
    (ctxMerged demo_base (ctxMap (Some 5%positive)))
    (ctxMerged (ctxMap (Some 4%positive)) (ctxMap (Some 6%positive))) ctxNil.


(** A second child of the same root, derived after the first. *)
Definition demo_sibling_state : state :=
  default demo_state
    (snd <$> NewChildExecutionContext demo_child_state (Some demo_root.1)).

Definition demo_sibling_ctx : ExecutionContext :=
  mkExecutionContext (Some 1%positive) 0 true
    (ctxMerged demo_base (ctxMap (Some 5%positive)))
    (ctxMerged (ctxMap (Some 4%positive)) (ctxMap (Some 7%positive))) ctxNil.

(** A root scope, its child and its grandchild, with the name "x" set in
    the Private store of each: the final state and the grandchild's Private
    view. *)
Definition demo_nested : option (state * context) :=
  s1 ← SetValue demo_root.2 (Private demo_root_ctx) "x" (VInt 1);
  '(c, s2) ← NewChildExecutionContext s1 (Some demo_root.1);
  ec ← ectxs s2 !! c;
  s3 ← SetValue s2 (Private ec) "x" (VInt 2);
  '(g, s4) ← NewChildExecutionContext s3 (Some c);
  eg ← ectxs s4 !! g;
  s5 ← SetValue s4 (Private eg) "x" (VInt 3);
  Some (s5, Private eg).

Example GetValue_spec_example :
  let v := mergeContexts demo_base demo_overlay in
  GetValue demo_state v "a" = Some (VInt 2, true) ∧
  GetValue demo_state v "b" = Some (VInt 3, true) ∧
  GetValue demo_state v "c" = Some (VNil, false).
Proof. vm_compute. done. Qed.

Example checkForValidIdentifiers_accepts :
  checkForValidIdentifiers ["a_1"; "Foo"; "_"] = None.
Proof. reflexivity. Qed.

Example checkForValidIdentifiers_rejects :
  checkForValidIdentifiers ["ok"; "a-1"; ""; "a b"]
  = Some (mkError None "" 0 0 None "checkForValidIdentifiers"
            (Some (errorString "context-key 'a-1' is not a valid identifier"))).
Proof. reflexivity. Qed.

(** ** The identifier pattern: correctness of matching *)

Section Matching.

Lemma append_empty_l (t : string) : "" +:+ t = t.
Proof. reflexivity. Qed.

Lemma append_String c (t1 t2 : string) :
  String c t1 +:+ t2 = String c (t1 +:+ t2).
Proof. reflexivity. Qed.

Lemma append_cons_inv (t1 t2 : string) c t :
  t1 +:+ t2 = String c t →
  (t1 = "" ∧ t2 = String c t) ∨ (∃ t1', t1 = String c t1' ∧ t = t1' +:+ t2).
Proof.
  destruct t1 as [|c1 t1].
  - rewrite append_empty_l. by left.
  - rewrite append_String. intros [= -> <-]. right. by exists t1.
Qed.

Lemma append_empty_inv (t1 t2 : string) :
  t1 +:+ t2 = "" → t1 = "" ∧ t2 = "".
Proof.
  destruct t1; [by rewrite append_empty_l | by rewrite append_String].
Qed.

Lemma lang_cat_inv r1 r2 t :
  re_lang (ReCat r1 r2) t →
  ∃ t1 t2, t = t1 +:+ t2 ∧ re_lang r1 t1 ∧ re_lang r2 t2.
Proof. inversion 1; subst; eauto. Qed.

Lemma lang_alt_inv r1 r2 t :
  re_lang (ReAlt r1 r2) t → re_lang r1 t ∨ re_lang r2 t.
Proof. inversion 1; subst; eauto. Qed.

Lemma lang_plus_inv r t :
  re_lang (RePlus r) t →
  ∃ t1 t2, t = t1 +:+ t2 ∧ re_lang r t1 ∧ re_lang (ReStar r) t2.
Proof. inversion 1; subst; eauto. Qed.

Lemma lang_class_inv ranges t :
  re_lang (ReClass ranges) t →
  ∃ c, t = String c "" ∧ in_class ranges c = true.
Proof. inversion 1; subst; eauto. Qed.

Lemma nullable_spec r : nullable r = true ↔ re_lang r "".
Proof.
  induction r as [| |rs|r1 IH1 r2 IH2|r1 IH1 r2 IH2|r IH|r IH]; simpl.
  - split; [done | inversion 1].
  - split; [constructor | done].
  - split; [done | inversion 1].
  - rewrite andb_true_iff, IH1, IH2. split.
    + intros [H1 H2]. by apply (lang_cat _ _ "" "").
    + intros (t1 & t2 & E & H1 & H2)%lang_cat_inv.
      symmetry in E. apply append_empty_inv in E as [-> ->]. done.
  - rewrite orb_true_iff, IH1, IH2. split.
    + intros [H|H]; [by apply lang_alt_l | by apply lang_alt_r].
    + apply lang_alt_inv.
  - split; [constructor | done].
  - rewrite IH. split.
    + intros H. apply (lang_plus _ "" ""); [done | constructor].
    + intros (t1 & t2 & E & H1 & H2)%lang_plus_inv.
      symmetry in E. apply append_empty_inv in E as [-> ->]. done.
Qed.

(** A non-empty word of a star starts with a non-empty word of the body. *)
Lemma star_cons_inv r c t :
  re_lang (ReStar r) (String c t) →
  ∃ t1 t2, t = t1 +:+ t2 ∧ re_lang r (String c t1) ∧ re_lang (ReStar r) t2.
Proof.
  remember (ReStar r) as R eqn:ER. remember (String c t) as u eqn:Eu.
  intros H. revert r c t ER Eu.
  induction H as [| | | | | |r' t1 t2 H1 _ H2 IH2|]; intros r0 c0 t0 ER Eu;
    try discriminate.
  injection ER as ->.
  apply append_cons_inv in Eu as [[-> ->]|(t1' & -> & ->)].
  - by apply IH2.
  - by exists t1', t2.
Qed.

Lemma deriv_spec r : ∀ c t, re_lang (deriv c r) t ↔ re_lang r (String c t).
Proof.
  induction r as [| |rs|r1 IH1 r2 IH2|r1 IH1 r2 IH2|r IH|r IH];
    intros c t; simpl.
  - split; inversion 1.
  - split; inversion 1.
  - split.
    + destruct (in_class rs c) eqn:E; inversion 1; subst. by constructor.
    + intros H. apply lang_class_inv in H as (c' & E & Hc).
      simplify_eq. rewrite Hc. constructor.
  - split.
    + intros H.
      assert (re_lang (ReCat (deriv c r1) r2) t → re_lang (ReCat r1 r2) (String c t))
        as Hcat.
      { intros (t1 & t2 & -> & H1 & H2)%lang_cat_inv.
        apply IH1 in H1. by apply (lang_cat _ _ (String c t1) t2). }
      destruct (nullable r1) eqn:N; [| by apply Hcat].
      apply lang_alt_inv in H as [H|H]; [by apply Hcat |].
      apply IH2 in H. apply nullable_spec in N.
      by apply (lang_cat _ _ "" (String c t)).
    + intros (t1 & t2 & E & H1 & H2)%lang_cat_inv. symmetry in E.
      apply append_cons_inv in E as [[-> ->]|(t1' & -> & ->)].
      * apply nullable_spec in H1. rewrite H1.
        apply lang_alt_r. by apply IH2.
      * apply IH1 in H1.
        destruct (nullable r1); [apply lang_alt_l |]; by constructor.
  - split.
    + intros [H|H]%lang_alt_inv;
        [apply lang_alt_l; by apply IH1 | apply lang_alt_r; by apply IH2].
    + intros [H|H]%lang_alt_inv;
        [apply lang_alt_l; by apply IH1 | apply lang_alt_r; by apply IH2].
  - split.
    + intros (t1 & t2 & -> & H1 & H2)%lang_cat_inv.
      apply IH in H1. by apply (lang_star_more _ (String c t1) t2).
    + intros (t1 & t2 & -> & H1 & H2)%star_cons_inv.
      apply IH in H1. by constructor.
  - split.
    + intros (t1 & t2 & -> & H1 & H2)%lang_cat_inv.
      apply IH in H1. by apply (lang_plus _ (String c t1) t2).
    + intros (t1 & t2 & E & H1 & H2)%lang_plus_inv. symmetry in E.
      apply append_cons_inv in E as [[-> ->]|(t1' & -> & ->)].
      * apply star_cons_inv in H2 as (u1 & u2 & -> & Hu1 & Hu2).
        apply IH in Hu1. by constructor.
      * apply IH in H1. by constructor.
Qed.

Lemma match_all_spec t : ∀ r, match_all r t = true ↔ re_lang r t.
Proof.
  induction t as [|c t IH]; intros r; simpl.
  - apply nullable_spec.
  - rewrite IH. apply deriv_spec.
Qed.

Lemma star_class_spec ranges t :
  re_lang (ReStar (ReClass ranges)) t ↔
  Forall (λ c, in_class ranges c = true) (String.list_ascii_of_string t).
Proof.
  split.
  - remember (ReStar (ReClass ranges)) as R eqn:ER. intros H. revert ER.
    induction H as [| | | | | |r' t1 t2 H1 _ H2 IH2|]; intros ER;
      try discriminate.
    + constructor.
    + injection ER as ->. apply lang_class_inv in H1 as (c & -> & Hc).
      rewrite append_String, append_empty_l. simpl.
      constructor; [done | by apply IH2].
  - induction t as [|c t IH]; simpl; intros H.
    + constructor.
    + apply Forall_cons in H as [Hc Ht].
      apply (lang_star_more _ (String c "") t); [by constructor | by apply IH].
Qed.

Lemma plus_class_spec ranges t :
  re_lang (RePlus (ReClass ranges)) t ↔
  t ≠ "" ∧ Forall (λ c, in_class ranges c = true) (String.list_ascii_of_string t).
Proof.
  split.
  - intros (t1 & t2 & -> & H1 & H2)%lang_plus_inv.
    apply lang_class_inv in H1 as (c & -> & Hc).
    rewrite append_String, append_empty_l. simpl. split; [done |].
    constructor; [done | by apply star_class_spec].
  - intros [Hne H]. destruct t as [|c t]; [done |]. simpl in H.
    apply Forall_cons in H as [Hc Ht].
    apply (lang_plus _ (String c "") t); [by constructor | by apply star_class_spec].
Qed.

Lemma ident_class_spec c :
  in_class [("a", "z"); ("A", "Z"); ("0", "9"); ("_", "_")]%char c = true
  ↔ ident_char c.
Proof.
  unfold in_class, in_range, ident_char; simpl.
  rewrite !orb_true_iff, !andb_true_iff, !N.leb_le. lia.
Qed.

Lemma reIdentifiers_spec v :
  MatchString reIdentifiers v = true ↔ valid_identifier v.
Proof.
  unfold MatchString, reIdentifiers, valid_identifier; simpl.
  rewrite match_all_spec, plus_class_spec.
  split; intros [Hne H]; (split; [done |]);
    eapply Forall_impl; try exact H; intros c; apply ident_class_spec.
Qed.

End Matching.

(** ** Stores in the heap: reading, writing, allocation *)

Section Stores.

Implicit Types (s : state) (c a b : context) (k n : string) (v : value).

Lemma write_target_locs c l : write_target c = Some l → l ∈ locs c.
Proof.
  induction c as [|[l'|]|a IHa b IHb]; simpl; intros H; try done.
  - injection H as ->. set_solver.
  - apply IHb in H. set_solver.
Qed.

(** A read looks at the map objects of the context only. *)
Lemma GetValue_frame s s' c n :
  (∀ l, l ∈ locs c → maps s' !! l = maps s !! l) →
  GetValue s' c n = GetValue s c n.
Proof.
  induction c as [|[l|]|a IHa b IHb]; simpl; intros H; try done.
  - rewrite H; [done | set_solver].
  - rewrite IHb by (intros; apply H; set_solver).
    destruct (GetValue s b n) as [[val had]|]; simpl; [|done].
    destruct had; simpl; [done |].
    apply IHa. intros; apply H; set_solver.
Qed.

(** A successful write replaces one entry of the write target. *)
Lemma SetValue_inv s c k v s' :
  SetValue s c k v = Some s' →
  ∃ l o, write_target c = Some l ∧ maps s !! l = Some o ∧
         s' = with_maps s (<[l := <[k := v]> o]> (maps s)).
Proof.
  induction c as [|[l|]|a IHa b IHb]; simpl; intros H; try done.
  - destruct (maps s !! l) as [o|] eqn:E; simpl in H; [|done].
    injection H as <-. by exists l, o.
  - by apply IHb.
Qed.

Lemma SetValue_total s c k v l :
  write_target c = Some l → l ∈ dom (maps s) → is_Some (SetValue s c k v).
Proof.
  induction c as [|[l'|]|a IHa b IHb]; simpl; intros H Hl; try done.
  - injection H as ->. apply elem_of_dom in Hl as [o ->]. by eexists.
  - by apply IHb.
Qed.

Lemma SetValue_maps_other s c k v s' l' :
  SetValue s c k v = Some s' → write_target c ≠ Some l' →
  maps s' !! l' = maps s !! l'.
Proof.
  intros (l & o & Hw & Hl & ->)%SetValue_inv Hne. simpl.
  apply lookup_insert_ne. congruence.
Qed.

Lemma SetValue_dom s c k v s' :
  SetValue s c k v = Some s' → dom (maps s') = dom (maps s).
Proof.
  intros (l & o & Hw & Hl & ->)%SetValue_inv. simpl.
  by apply dom_insert_lookup_L.
Qed.

Lemma SetValue_ectxs s c k v s' :
  SetValue s c k v = Some s' →
  ectxs s' = ectxs s ∧ templates s' = templates s ∧ autoescape s' = autoescape s.
Proof. by intros (l & o & Hw & Hl & ->)%SetValue_inv. Qed.

(** A write is read back through the same context. *)
Lemma SetValue_GetValue s c k v s' :
  SetValue s c k v = Some s' → GetValue s' c k = Some (v, true).
Proof.
  induction c as [|[l|]|a IHa b IHb]; simpl; intros H; try done.
  - destruct (maps s !! l) as [o|] eqn:E; simpl in H; [|done].
    injection H as <-. simpl. rewrite lookup_insert_eq. simpl.
    by rewrite lookup_insert_eq.
  - by rewrite (IHb H).
Qed.

(** A write whose target lies outside a context leaves its reads alone. *)
Lemma SetValue_GetValue_other s c c' k v s' n :
  SetValue s c k v = Some s' →
  (∀ l, write_target c = Some l → l ∉ locs c') →
  GetValue s' c' n = GetValue s c' n.
Proof.
  intros H Hsep. apply GetValue_frame. intros l Hl.
  eapply SetValue_maps_other; [done |]. intros Hw. by apply (Hsep l).
Qed.

Lemma alloc_map_spec s o l s' :
  alloc_map s o = (l, s') →
  l = fresh (dom (maps s)) ∧ (l ∉ dom (maps s)) ∧
  s' = with_maps s (<[l := o]> (maps s)).
Proof.
  unfold alloc_map. intros [= <- <-]. split_and!; [done | apply is_fresh | done].
Qed.

Lemma alloc_ectx_spec s e p s' :
  alloc_ectx s e = (p, s') →
  p = fresh (dom (ectxs s)) ∧ (p ∉ dom (ectxs s)) ∧
  s' = with_ectxs s (<[p := e]> (ectxs s)).
Proof.
  unfold alloc_ectx. intros [= <- <-]. split_and!; [done | apply is_fresh | done].
Qed.

Lemma closed_fresh s c :
  closed s c → fresh (dom (maps s)) ∉ locs c.
Proof. intros Hc Hin. apply Hc in Hin. by apply is_fresh in Hin. Qed.

(** Writes through a context with a fixed target, one after another. *)
Lemma SetValues_separate s c c' kvs l :
  write_target c = Some l → l ∈ dom (maps s) → l ∉ locs c' →
  ∃ s', SetValues s c kvs = Some s' ∧ ∀ n, GetValue s' c' n = GetValue s c' n.
Proof.
  intros Hw. revert s. induction kvs as [|[k v] kvs IH]; intros s Hl Hsep; simpl.
  - by exists s.
  - destruct (SetValue_total s c k v l Hw Hl) as [s1 H1]. rewrite H1. simpl.
    destruct (IH s1) as (s2 & H2 & Hget).
    { by rewrite (SetValue_dom _ _ _ _ _ H1). }
    { done. }
    exists s2. split; [done |]. intros n. rewrite Hget.
    eapply SetValue_GetValue_other; [done |]. intros l' Hl'. congruence.
Qed.

End Stores.

(** ** Scope construction *)

Section Scopes.

Implicit Types (s : state) (e : ExecutionContext).

Lemma newExecutionContext_spec s tpl ctx p s' :
  newExecutionContext s tpl ctx = (p, s') →
  ∃ lp lo,
    (lp ∉ dom (maps s)) ∧ (lo ∉ dom (maps s)) ∧ lp ≠ lo ∧
    (p ∉ dom (ectxs s)) ∧
    maps s' = <[lo := ∅]> (<[lp := {[ "pongo2" := VMap pongo2MetaContext ]}]> (maps s)) ∧
    ectxs s' = <[p := mkExecutionContext tpl 0 (autoescape s)
                        (ctxMerged ctx (ctxMap (Some lo)))
                        (ctxMap (Some lp)) ctxNil]> (ectxs s) ∧
    templates s' = templates s ∧ autoescape s' = autoescape s.
Proof.
  unfold newExecutionContext.
  destruct (alloc_map s _) as [lp s1] eqn:E1.
  destruct (alloc_map s1 _) as [lo s2] eqn:E2.
  apply alloc_map_spec in E1 as (_ & Hlp & ->).
  apply alloc_map_spec in E2 as (_ & Hlo & ->). simpl in *.
  intros (_ & Hp & ->)%alloc_ectx_spec. simpl in *.
  exists lp, lo. rewrite dom_insert_L in Hlo.
  split_and!; try done; set_solver.
Qed.

Lemma NewChildExecutionContext_spec s p c s' :
  NewChildExecutionContext s (Some p) = Some (c, s') →
  ∃ e lo,
    ectxs s !! p = Some e ∧ lo = fresh (dom (maps s)) ∧
    (c ∉ dom (ectxs s)) ∧
    maps s' = <[lo := ∅]> (maps s) ∧
    ectxs s' = <[c := mkExecutionContext (template e) 0 (Autoescape e)
                        (Public e)
                        (ctxMerged (Private e) (ctxMap (Some lo)))
                        (Shared e)]> (ectxs s) ∧
    templates s' = templates s ∧ autoescape s' = autoescape s.
Proof.
  unfold NewChildExecutionContext. simpl.
  destruct (ectxs s !! p) as [e|] eqn:Ep; simpl; [|done].
  unfold set_Shared, alloc_ectx, alloc_map. simpl.
  set (c0 := fresh (dom (ectxs s))).
  assert (c0 ∉ dom (ectxs s)) as Hc0 by apply is_fresh.
  assert (c0 ≠ p) as Hne.
  { intros ->. apply Hc0. by apply elem_of_dom_2 in Ep. }
  rewrite (lookup_insert_ne _ c0 p _ Hne), Ep. simpl.
  rewrite lookup_insert_eq. simpl. intros [= <- <-]. simpl.
  exists e, (fresh (dom (maps s))).
  split_and!; try done. by rewrite insert_insert_eq.
Qed.

Lemma NewChildExecutionContext_total s p e :
  ectxs s !! p = Some e → is_Some (NewChildExecutionContext s (Some p)).
Proof.
  intros Ep. unfold NewChildExecutionContext. simpl. rewrite Ep. simpl.
  unfold set_Shared, alloc_ectx, alloc_map. simpl.
  assert (fresh (dom (ectxs s)) ≠ p) as Hne.
  { intros E. apply elem_of_dom_2 in Ep. rewrite <- E in Ep.
    by apply is_fresh in Ep. }
  rewrite (lookup_insert_ne _ _ p _ Hne), Ep. simpl.
  rewrite lookup_insert_eq. simpl. by eexists.
Qed.

End Scopes.

(** ** Properties of the stores *)

(** C1. A merged view reads the overlay first: a name the overlay holds is
    returned from the overlay with found = true; a name the overlay does
    not hold is answered exactly as the base answers it; a name neither
    side holds comes back with found = false. *)
Theorem mergedContext_GetValue_spec (s : state) (base overlay : context) (n : string) :
  (∀ v, GetValue s overlay n = Some (v, true) →
        GetValue s (mergeContexts base overlay) n = Some (v, true)) ∧
  (∀ v, GetValue s overlay n = Some (v, false) →
        GetValue s (mergeContexts base overlay) n = GetValue s base n) ∧
  (∀ v w, GetValue s overlay n = Some (v, false) →
          GetValue s base n = Some (w, false) →
          GetValue s (mergeContexts base overlay) n = Some (w, false)).
Proof.
  split_and!.
  - intros v H. simpl. by rewrite H.
  - intros v H. simpl. by rewrite H.
  - intros v w H Hb. simpl. by rewrite H.
Qed.

Lemma mergedContext_GetValue_witness :
  GetValue demo_state (mergeContexts demo_base demo_overlay) "a" = Some (VInt 2, true) ∧
  GetValue demo_state (mergeContexts demo_base demo_overlay) "c" = Some (VNil, false).
Proof.
  split.
  - apply (proj1 (mergedContext_GetValue_spec demo_state demo_base demo_overlay "a")).
    vm_compute. reflexivity.
  - apply (proj2 (proj2 (mergedContext_GetValue_spec demo_state demo_base demo_overlay "c"))
             VNil VNil); vm_compute; reflexivity.
Defined.

(** C2, as the code has it. [SetValue] on a merged view is [SetValue] on
    its overlay and changes no map object but the overlay's write target.
    When that object is not one the base refers to, every read of the base
    is as before, nested views included.  The views this file builds have
    a freshly made overlay: writes through the Public view of a new root
    scope always succeed and never change a read of the store the caller
    passed in. *)
Theorem mergedContext_SetValue_frame :
  (∀ s base overlay k v,
     SetValue s (mergeContexts base overlay) k v = SetValue s overlay k v) ∧
  (∀ s base overlay k v s',
     SetValue s (mergeContexts base overlay) k v = Some s' →
     (∀ l, write_target overlay ≠ Some l → maps s' !! l = maps s !! l) ∧
     ((∀ l, write_target overlay = Some l → l ∉ locs base) →
      ∀ n, GetValue s' base n = GetValue s base n)) ∧
  (∀ s tpl ctx p s1 e kvs,
     closed s ctx →
     newExecutionContext s tpl ctx = (p, s1) →
     ectxs s1 !! p = Some e →
     ∃ s2, SetValues s1 (Public e) kvs = Some s2 ∧
           ∀ n, GetValue s2 ctx n = GetValue s ctx n).
Proof.
  split_and!.
  - done.
  - intros s base overlay k v s' H. simpl in H. split.
    + intros l Hl. by eapply SetValue_maps_other.
    + intros Hsep n. by eapply SetValue_GetValue_other.
  - intros s tpl ctx p s1 e kvs Hc Hnew He.
    apply newExecutionContext_spec in Hnew
      as (lp & lo & Hlp & Hlo & Hne & Hp & Hm & Hes & _ & _).
    rewrite Hes, lookup_insert_eq in He. injection He as <-. simpl.
    assert (lo ∉ locs ctx) as Hlo' by (intros Hin; by apply Hc in Hin).
    assert (lp ∉ locs ctx) as Hlp' by (intros Hin; by apply Hc in Hin).
    destruct (SetValues_separate s1 (ctxMerged ctx (ctxMap (Some lo))) ctx kvs lo)
      as (s2 & H2 & Hget); [done | | done |].
    { rewrite Hm, dom_insert_L. set_solver. }
    exists s2. split; [done |]. intros n. rewrite Hget.
    apply GetValue_frame. intros l Hl. rewrite Hm.
    rewrite !lookup_insert_ne; [done | |]; intros ->; done.
Qed.

(** C2 as stated fails when the overlay of a view shares its map object
    with the base: in the view [mergeContexts(m, m)] over the map [{a:1}],
    [SetValue("a", 9)] changes what the base returns for ["a"]. *)
Lemma mergedContext_SetValue_aliasing :
  ∃ s', SetValue demo_state (mergeContexts demo_base demo_base) "a" (VInt 9) = Some s' ∧
        GetValue demo_state demo_base "a" = Some (VInt 1, true) ∧
        GetValue s' demo_base "a" = Some (VInt 9, true) ∧
        GetValue s' demo_base "a" ≠ GetValue demo_state demo_base "a".
Proof.
  eexists. split_and!.
  - vm_compute. reflexivity.
  - vm_compute. reflexivity.
  - vm_compute. reflexivity.
  - vm_compute. discriminate.
Qed.

Lemma mergedContext_SetValue_frame_witness :
  ∃ s2, SetValues (newExecutionContext demo_state (Some 1%positive) demo_base).2
          (ctxMerged demo_base (ctxMap (Some 5%positive)))
          [("a", VInt 9); ("z", VNil)] = Some s2 ∧
        ∀ n, GetValue s2 demo_base n = GetValue demo_state demo_base n.
Proof.
  refine (proj2 (proj2 mergedContext_SetValue_frame) demo_state (Some 1%positive)
            demo_base
            (newExecutionContext demo_state (Some 1%positive) demo_base).1
            (newExecutionContext demo_state (Some 1%positive) demo_base).2
            (mkExecutionContext (Some 1%positive) 0 true
               (ctxMerged demo_base (ctxMap (Some 5%positive)))
               (ctxMap (Some 4%positive)) ctxNil)
            [("a", VInt 9); ("z", VNil)] _ _ _).
  - unfold closed. apply (bool_decide_unpack _). vm_compute. exact I.
  - reflexivity.
  - vm_compute. reflexivity.
Defined.

(** ** Properties of the scopes *)

(** C3. The Private store of a child is a fresh empty overlay over the
    parent's Private: a write into it always succeeds, is read back by the
    child and changes no read of the parent's Private; a name the parent's
    Private binds is found through the child's Private with the same
    value. *)
Theorem child_Private_isolated (s : state) (parent child : positive)
    (s1 : state) (ep ec : ExecutionContext) :
  ectxs s !! parent = Some ep →
  closed s (Private ep) →
  NewChildExecutionContext s (Some parent) = Some (child, s1) →
  ectxs s1 !! child = Some ec →
  ectxs s1 !! parent = Some ep ∧
  (∀ n, GetValue s1 (Private ep) n = GetValue s (Private ep) n) ∧
  (∀ k v, ∃ s2,
     SetValue s1 (Private ec) k v = Some s2 ∧
     ectxs s2 !! parent = Some ep ∧
     GetValue s2 (Private ec) k = Some (v, true) ∧
     ∀ n, GetValue s2 (Private ep) n = GetValue s1 (Private ep) n) ∧
  (∀ n v, GetValue s1 (Private ep) n = Some (v, true) →
          GetValue s1 (Private ec) n = Some (v, true)).
Proof.
  intros Hp Hcl Hnew Hc.
  apply NewChildExecutionContext_spec in Hnew
    as (e & lo & He & -> & Hfresh & Hm & Hes & _ & _).
  rewrite Hp in He. injection He as <-.
  rewrite Hes, lookup_insert_eq in Hc. injection Hc as <-. simpl.
  pose proof (closed_fresh _ _ Hcl) as Hlo.
  assert (child ≠ parent) as Hne.
  { intros ->. apply Hfresh. by apply elem_of_dom_2 in Hp. }
  assert (∀ n, GetValue s1 (Private ep) n = GetValue s (Private ep) n) as Hsame.
  { intros n. apply GetValue_frame. intros l Hl. rewrite Hm.
    apply lookup_insert_ne. by intros <-. }
  split_and!.
  - by rewrite Hes, lookup_insert_ne.
  - done.
  - intros k v.
    destruct (SetValue_total s1 (ctxMap (Some (fresh (dom (maps s))))) k v
                (fresh (dom (maps s)))) as [s2 H2]; [done | |].
    { rewrite Hm, dom_insert_L. set_solver. }
    exists s2. split_and!.
    + done.
    + destruct (SetValue_ectxs _ _ _ _ _ H2) as (-> & _ & _).
      by rewrite Hes, lookup_insert_ne.
    + pose proof (SetValue_GetValue _ _ _ _ _ H2) as Hrb. simpl in Hrb.
      by rewrite Hrb.
    + intros n. eapply SetValue_GetValue_other; [done |].
      by intros l [= <-].
  - intros n v Hn. rewrite Hm, lookup_insert_eq. simpl.
    by rewrite lookup_empty.
Qed.

(** C4. A child holds the parent's own Public, Shared and template
    references and starts with macro depth zero, so a write through the
    child's Public or Shared is read through the parent's; all scopes of
    a render tree hold one Public, one Shared and one template reference,
    and a write through the Public or Shared of one of them is read
    through that of every other. *)
Theorem child_shares_parent_stores :
  (∀ s parent child s1 ep ec,
     ectxs s !! parent = Some ep →
     NewChildExecutionContext s (Some parent) = Some (child, s1) →
     ectxs s1 !! child = Some ec →
     Public ec = Public ep ∧ Shared ec = Shared ep ∧
     template ec = template ep ∧ macroDepth ec = 0%Z ∧
     ∀ sl k v s2, sl ≠ SlotPrivate →
       SetValue s1 (slot_of ec sl) k v = Some s2 →
       GetValue s2 (slot_of ep sl) k = Some (v, true)) ∧
  (∀ root s T,
     render_tree root s T →
     ∀ p q, p ∈ T → q ∈ T →
     ∃ e1 e2,
       ectxs s !! p = Some e1 ∧ ectxs s !! q = Some e2 ∧
       Shared e1 = Shared e2 ∧ Public e1 = Public e2 ∧
       template e1 = template e2 ∧
       ∀ sl k v s', sl ≠ SlotPrivate →
         SetValue s (slot_of e1 sl) k v = Some s' →
         GetValue s' (slot_of e2 sl) k = Some (v, true)).
Proof.
  split.
  - intros s parent child s1 ep ec Hp Hnew Hc.
    apply NewChildExecutionContext_spec in Hnew
      as (e & lo & He & -> & Hfresh & Hm & Hes & _ & _).
    rewrite Hp in He. injection He as <-.
    rewrite Hes, lookup_insert_eq in Hc. injection Hc as <-. simpl.
    split_and!; try done.
    intros [] k v s2 Hsl H; try done; simpl in *;
      by apply SetValue_GetValue in H.
  - intros root s T Htree.
    assert (∃ er, ectxs s !! root = Some er ∧
              ∀ p, p ∈ T → ∃ e, ectxs s !! p = Some e ∧
                Shared e = Shared er ∧ Public e = Public er ∧
                template e = template er) as (er & Hr & Hall).
    { induction Htree as [s [er Hr]|s T p c s' _ (er & Hr & IH) Hp Hnew
                          |s T p e sl k v s' _ (er & Hr & IH) Hp He Hset].
      - exists er. split; [done |]. intros p ->%list_elem_of_singleton.
        by exists er.
      - apply NewChildExecutionContext_spec in Hnew
          as (e & lo & He & -> & Hfresh & Hm & Hes & _ & _).
        assert (∀ q eq, ectxs s !! q = Some eq → ectxs s' !! q = Some eq) as Hkeep.
        { intros q eq Hq. rewrite Hes, lookup_insert_ne; [done |].
          intros <-. apply Hfresh. by apply elem_of_dom_2 in Hq. }
        exists er. split; [by apply Hkeep |].
        intros q [->|Hq]%elem_of_cons.
        + destruct (IH p Hp) as (e' & He' & HS & HP & HT).
          rewrite He in He'. injection He' as <-.
          eexists. split; [by rewrite Hes, lookup_insert_eq |]. done.
        + destruct (IH q Hq) as (e' & He' & HS & HP & HT).
          exists e'. split; [by apply Hkeep | done].
      - destruct (SetValue_ectxs _ _ _ _ _ Hset) as (Hes & _ & _).
        exists er. rewrite Hes. split; [done |]. intros q Hq. by apply IH. }
    intros p q Hp Hq.
    destruct (Hall p Hp) as (e1 & H1 & HS1 & HP1 & HT1).
    destruct (Hall q Hq) as (e2 & H2 & HS2 & HP2 & HT2).
    exists e1, e2. split_and!; try congruence.
    intros [] k v s' Hsl H; try done; simpl in *.
    + rewrite HP2, <- HP1. by apply SetValue_GetValue in H.
    + rewrite HS2, <- HS1. by apply SetValue_GetValue in H.
Qed.

Lemma child_Private_isolated_witness :
  GetValue demo_child_state (Private demo_child_ctx) "pongo2"
  = Some (VMap pongo2MetaContext, true).
Proof.
  refine (proj2 (proj2 (proj2
            (child_Private_isolated demo_root.2 1%positive 2%positive
               demo_child_state demo_root_ctx demo_child_ctx _ _ _ _)))
            "pongo2" (VMap pongo2MetaContext) _).
  - vm_compute. reflexivity.
  - unfold closed. apply (bool_decide_unpack _). vm_compute. exact I.
  - vm_compute. reflexivity.
  - vm_compute. reflexivity.
  - vm_compute. reflexivity.
Defined.

Lemma child_shares_parent_stores_witness :
  (Public demo_child_ctx = Public demo_root_ctx ∧
   Shared demo_child_ctx = Shared demo_root_ctx ∧
   template demo_child_ctx = template demo_root_ctx ∧
   macroDepth demo_child_ctx = 0%Z) ∧
  ∃ e1 e2,
    ectxs demo_child_state !! 2%positive = Some e1 ∧
    ectxs demo_child_state !! 1%positive = Some e2 ∧
    Shared e1 = Shared e2 ∧ Public e1 = Public e2 ∧ template e1 = template e2.
Proof.
  split.
  - destruct (proj1 child_shares_parent_stores demo_root.2 1%positive 2%positive
                demo_child_state demo_root_ctx demo_child_ctx)
      as (H1 & H2 & H3 & H4 & _).
    + vm_compute. reflexivity.
    + vm_compute. reflexivity.
    + vm_compute. reflexivity.
    + done.
  - destruct (proj2 child_shares_parent_stores 1%positive demo_child_state
                [2%positive; 1%positive]) with (p := 2%positive) (q := 1%positive)
      as (e1 & e2 & H1 & H2 & H3 & H4 & H5 & _).
    + apply (tree_child 1%positive demo_root.2 [1%positive] 1%positive).
      * apply tree_root. vm_compute. eauto.
      * apply list_elem_of_singleton. reflexivity.
      * vm_compute. reflexivity.
    + apply (bool_decide_unpack _). vm_compute. exact I.
    + apply (bool_decide_unpack _). vm_compute. exact I.
    + by exists e1, e2.
Defined.





(** ** Identifier validation *)

Lemma checkForValidIdentifiers_cons (v : string) (rest : list string) :
  checkForValidIdentifiers (v :: rest)
  = if negb (MatchString reIdentifiers v) then Some (validation_error v)
    else checkForValidIdentifiers rest.
Proof. reflexivity. Qed.

Lemma valid_identifier_dec (v : string) :
  {valid_identifier v} + {¬ valid_identifier v}.
Proof.
  destruct (MatchString reIdentifiers v) eqn:E.
  - left. by apply reIdentifiers_spec.
  - right. intros H%reIdentifiers_spec. congruence.
Qed.

Lemma checkForValidIdentifiers_first (pre post : list string) (v : string) :
  Forall valid_identifier pre → ¬ valid_identifier v →
  checkForValidIdentifiers (pre ++ v :: post) = Some (validation_error v).
Proof.
  intros Hpre Hv. induction Hpre as [|u pre Hu _ IH].
  - rewrite app_nil_l, checkForValidIdentifiers_cons.
    destruct (MatchString reIdentifiers v) eqn:E; [|done].
    by apply reIdentifiers_spec in E.
  - rewrite <- app_comm_cons, checkForValidIdentifiers_cons.
    apply reIdentifiers_spec in Hu. by rewrite Hu.
Qed.

Lemma first_invalid (identifiers : list string) :
  ¬ Forall valid_identifier identifiers →
  ∃ pre v post, identifiers = pre ++ v :: post ∧
                Forall valid_identifier pre ∧ ¬ valid_identifier v.
Proof.
  induction identifiers as [|u l IH]; intros H.
  - destruct H. constructor.
  - destruct (valid_identifier_dec u) as [Hu|Hu].
    + destruct IH as (pre & v & post & -> & Hpre & Hv).
      { intros Hl. apply H. by constructor. }
      exists (u :: pre), v, post. split_and!; [done | by constructor | done].
    + exists [], u, l. split_and!; [done | constructor | done].
Qed.

(** C6. [checkForValidIdentifiers] returns nil exactly when every name is
    a non-empty word over letters, digits and underscore (so for the empty
    sequence too); otherwise the result is the error with the sender tag
    "checkForValidIdentifiers" that names the first invalid name, whatever
    follows that name in the sequence. *)
Theorem checkForValidIdentifiers_spec (identifiers : list string) :
  (checkForValidIdentifiers identifiers = None
   ↔ Forall valid_identifier identifiers) ∧
  (∀ pre v post,
     identifiers = pre ++ v :: post →
     Forall valid_identifier pre → ¬ valid_identifier v →
     checkForValidIdentifiers identifiers = Some (validation_error v)) ∧
  (¬ Forall valid_identifier identifiers →
   ∃ pre v post,
     identifiers = pre ++ v :: post ∧
     Forall valid_identifier pre ∧ ¬ valid_identifier v ∧
     checkForValidIdentifiers identifiers = Some (validation_error v) ∧
     Sender (validation_error v) = "checkForValidIdentifiers").
Proof.
  assert (∀ pre v post,
     identifiers = pre ++ v :: post →
     Forall valid_identifier pre → ¬ valid_identifier v →
     checkForValidIdentifiers identifiers = Some (validation_error v)) as Hfirst.
  { intros pre v post -> Hpre Hv. by apply checkForValidIdentifiers_first. }
  split_and!.
  - split.
    + clear Hfirst. induction identifiers as [|u l IH]; [constructor |].
      rewrite checkForValidIdentifiers_cons.
      destruct (MatchString reIdentifiers u) eqn:E; [|done]. simpl.
      intros Hl. constructor; [by apply reIdentifiers_spec | by apply IH].
    + clear Hfirst. induction 1 as [|u l Hu _ IH]; [done |].
      rewrite checkForValidIdentifiers_cons.
      apply reIdentifiers_spec in Hu. by rewrite Hu.
  - done.
  - intros H. apply first_invalid in H as (pre & v & post & E & Hpre & Hv).
    exists pre, v, post. split_and!; try done. by eapply Hfirst.
Qed.

Lemma checkForValidIdentifiers_witness :
  checkForValidIdentifiers ["a_1"; "Foo"; "a-1"; ""; "a b"]
  = Some (validation_error "a-1").
Proof.
  apply (proj1 (proj2 (checkForValidIdentifiers_spec ["a_1"; "Foo"; "a-1"; ""; "a b"]))
           ["a_1"; "Foo"] "a-1" [""; "a b"]).
  - reflexivity.
  - repeat constructor; try discriminate;
      unfold ident_char; simpl; lia.
  - intros [_ H]. simpl in H.
    apply Forall_cons in H as [_ H]. apply Forall_cons in H as [H _].
    unfold ident_char in H. simpl in H. lia.
Defined.

(** ** Diagnostics *)

(** C7. For a scope with an owning template, [OrigError] and [Error]
    build an error with sender "execution" and the scope's template;
    without a token the location is line 0, column 0 and the template's
    name, with a token it is the token's filename, line and column; and a
    call that succeeds with a token succeeds without one. *)
Theorem OrigError_spec (s : state) (ctx : positive) (e : ExecutionContext)
    (tp : positive) (tpl : Template) :
  ectxs s !! ctx = Some e →
  template e = Some tp →
  templates s !! tp = Some tpl →
  (∀ err, OrigError s (Some ctx) err None
          = Some (mkError (Some tp) (name tpl) 0 0 None "execution" err)) ∧
  (∀ err t, OrigError s (Some ctx) err (Some t)
            = Some (mkError (Some tp) (Filename t) (Line t) (Col t) (Some t)
                      "execution" err)) ∧
  (∀ msg, ExecutionContext_Error s (Some ctx) msg None
          = Some (mkError (Some tp) (name tpl) 0 0 None "execution"
                    (Some (errorString msg)))) ∧
  (∀ msg t, ExecutionContext_Error s (Some ctx) msg (Some t)
            = Some (mkError (Some tp) (Filename t) (Line t) (Col t) (Some t)
                      "execution" (Some (errorString msg)))) ∧
  (∀ s' ctx' err t, is_Some (OrigError s' ctx' err (Some t)) →
                    is_Some (OrigError s' ctx' err None)).
Proof.
  intros He Ht Htpl.
  assert (∀ err token, OrigError s (Some ctx) err token
     = Some (match token with
             | Some t => mkError (Some tp) (Filename t) (Line t) (Col t) (Some t)
                           "execution" err
             | None => mkError (Some tp) (name tpl) 0 0 None "execution" err
             end)) as H.
  { intros err token. unfold OrigError. simpl. rewrite He. simpl.
    rewrite Ht. simpl. rewrite Htpl. simpl. by destruct token. }
  split_and!.
  - intros err. apply (H err None).
  - intros err t. apply (H err (Some t)).
  - intros msg. apply (H _ None).
  - intros msg t. apply (H _ (Some t)).
  - intros s' ctx' err t. unfold OrigError.
    destruct ctx' as [l|]; simpl; [|by intros [? ?]].
    destruct (ectxs s' !! l) as [e'|]; simpl; [|by intros [? ?]].
    destruct (template e') as [tp'|]; simpl; [|by intros [? ?]].
    destruct (templates s' !! tp') as [tpl'|]; simpl; [|by intros [? ?]].
    intros _. by eexists.
Qed.

Lemma OrigError_witness :
  OrigError demo_root.2 (Some 1%positive) None None
  = Some (mkError (Some 1%positive) "index.html" 0 0 None "execution" None) ∧
  ExecutionContext_Error demo_root.2 (Some 1%positive) "boom"
    (Some (mkToken "base.html" 7 3))
  = Some (mkError (Some 1%positive) "base.html" 7 3 (Some (mkToken "base.html" 7 3))
            "execution" (Some (errorString "boom"))).
Proof.
  destruct (OrigError_spec demo_root.2 1%positive demo_root_ctx 1%positive
              (mkTemplate "index.html" None)) as (H1 & _ & _ & H4 & _).
  - vm_compute. reflexivity.
  - reflexivity.
  - vm_compute. reflexivity.
  - split; [apply (H1 None) | apply (H4 "boom" (mkToken "base.html" 7 3))].
Defined.

(** ** Listing identifiers *)

Section Identifiers.

Implicit Types (s : state) (a b c : context) (ids : list string).

(** Two listings of one store hold the same names, in some order. *)
Lemma GetIdentifiers_perm s c ids ids' :
  GetIdentifiers s c ids → GetIdentifiers s c ids' → ids ≡ₚ ids'.
Proof.
  intros H. revert ids'.
  induction H as [|l o ids Ho Hp
                  |a b la la' lb lb' Ha IHa Ha' IHa' Hb IHb Hb' IHb'];
    intros ids2 H2; inversion H2; subst.
  - done.
  - simplify_eq. by etrans.
  - rewrite !app_nil_l.
    assert (length la = length la0) as -> by (by apply Permutation_length, IHa).
    assert (length lb = length lb0) as -> by (by apply Permutation_length, IHb).
    apply Permutation_app.
    + destruct (decide (0 < length la0)); [by apply IHa' | done].
    + destruct (decide (0 < length lb0)); [by apply IHb' | done].
Qed.

Lemma guarded_append (l l' : list string) :
  length l = length l' → (if decide (0 < length l) then l' else []) = l'.
Proof.
  intros E. destruct (decide (0 < length l)) as [|Hn]; [done |].
  destruct l'; [done | simpl in E; lia].
Qed.

Lemma GetIdentifiers_merged_iff s a b ids :
  GetIdentifiers s (mergeContexts a b) ids ↔
  ∃ la lb, GetIdentifiers s a la ∧ GetIdentifiers s b lb ∧ ids = la ++ lb.
Proof.
  split.
  - inversion 1 as [| |a0 b0 la la' lb lb' Ha Ha' Hb Hb']; subst.
    exists la', lb'. split_and!; [done | done |].
    rewrite app_nil_l.
    rewrite (guarded_append la la'), (guarded_append lb lb'); [done | |];
      by eapply Permutation_length, GetIdentifiers_perm.
  - intros (la & lb & Ha & Hb & ->).
    pose proof (GetIdentifiers_merged s a b la la lb lb Ha Ha Hb Hb) as H.
    by rewrite app_nil_l, !guarded_append in H.
Qed.

Lemma GetIdentifiers_map_spec s m ids :
  GetIdentifiers s (ctxMap m) ids →
  NoDup ids ∧ ∀ k, k ∈ ids ↔ ∃ v, GetValue s (ctxMap m) k = Some (v, true).
Proof.
  inversion 1 as [|l o ids0 Ho Hp|]; subst; simpl.
  - split; [constructor |]. intros k. split; [by intros ?%elem_of_nil |].
    by intros [v [=]].
  - rewrite Ho. simpl. split.
    + rewrite Hp. apply NoDup_fst_map_to_list.
    + intros k. rewrite Hp, list_elem_of_fmap. split.
      * intros ([k' v] & -> & Hin). apply elem_of_map_to_list in Hin.
        simpl. rewrite Hin. by exists v.
      * intros [v Hv]. destruct (o !! k) as [v'|] eqn:E; [|done].
        exists (k, v'). split; [done |]. by apply elem_of_map_to_list.
Qed.

Lemma filter_eq_absent (l : list string) (k : string) :
  k ∉ l → filter (λ x, x = k) l = [].
Proof.
  induction l as [|x l IH]; [done |].
  intros [Hne Hl]%not_elem_of_cons.
  rewrite filter_cons_False by done. by apply IH.
Qed.

Lemma filter_eq_NoDup (l : list string) (k : string) :
  NoDup l → k ∈ l → length (filter (λ x, x = k) l) = 1.
Proof.
  induction 1 as [|x l Hx Hnd IH]; [by intros ?%elem_of_nil |].
  intros Hin. destruct (decide (x = k)) as [->|Hne].
  - rewrite filter_cons_True by done. simpl.
    by rewrite filter_eq_absent.
  - rewrite filter_cons_False by done. apply IH.
    apply elem_of_cons in Hin as [->|Hin]; done.
Qed.

Lemma GetIdentifiers_run_sound s c ids :
  GetIdentifiers_run s c = Some ids → GetIdentifiers s c ids.
Proof.
  revert ids. induction c as [|[l|]|a IHa b IHb]; simpl; intros ids H.
  - done.
  - destruct (maps s !! l) as [o|] eqn:E; simpl in H; [|done].
    injection H as <-. by eapply GetIdentifiers_map.
  - injection H as <-. constructor.
  - destruct (GetIdentifiers_run s a) as [la|]; simpl in H; [|done].
    destruct (GetIdentifiers_run s b) as [lb|]; simpl in H; [|done].
    injection H as <-. constructor; auto.
Qed.

End Identifiers.

(** ** The autoescape flag *)

(** C9. A scope holds its own copy of the flag.  A root scope takes the
    value of the package variable at construction and no later
    [SetAutoescape] changes any scope; a child takes the parent's value,
    and assigning the child's flag afterwards changes no other scope, the
    parent and the scopes that existed before the child included, nor the
    package variable. *)
Theorem Autoescape_by_value :
  (∀ s tpl ctx p s1,
     newExecutionContext s tpl ctx = (p, s1) →
     ∃ e, ectxs s1 !! p = Some e ∧ Autoescape e = autoescape s ∧
          ∀ b, ectxs (SetAutoescape s1 b) !! p = Some e) ∧
  (∀ s b, ectxs (SetAutoescape s b) = ectxs s ∧
          autoescape (SetAutoescape s b) = b) ∧
  (∀ s parent child s1 ep,
     ectxs s !! parent = Some ep →
     NewChildExecutionContext s (Some parent) = Some (child, s1) →
     ∃ ec, ectxs s1 !! child = Some ec ∧ Autoescape ec = Autoescape ep ∧
       ∀ b, ∃ s2,
         set_Autoescape s1 (Some child) b = Some s2 ∧
         Autoescape <$> ectxs s2 !! child = Some b ∧
         ectxs s2 !! parent = Some ep ∧
         (∀ q, q ≠ child → ectxs s2 !! q = ectxs s1 !! q) ∧
         (∀ q, q ∈ dom (ectxs s) → q ≠ child) ∧
         autoescape s2 = autoescape s).
Proof.
  split_and!.
  - intros s tpl ctx p s1 Hnew.
    apply newExecutionContext_spec in Hnew
      as (lp & lo & _ & _ & _ & _ & _ & Hes & _ & _).
    eexists. split_and!.
    + by rewrite Hes, lookup_insert_eq.
    + done.
    + intros b. simpl. by rewrite Hes, lookup_insert_eq.
  - done.
  - intros s parent child s1 ep Hp Hnew.
    apply NewChildExecutionContext_spec in Hnew
      as (e & lo & He & -> & Hfresh & Hm & Hes & _ & Ha).
    rewrite Hp in He. injection He as <-.
    assert (child ≠ parent) as Hne.
    { intros ->. apply Hfresh. by apply elem_of_dom_2 in Hp. }
    eexists. split_and!.
    + by rewrite Hes, lookup_insert_eq.
    + done.
    + intros b. unfold set_Autoescape. simpl.
      rewrite Hes, lookup_insert_eq. simpl.
      eexists. split_and!.
      * done.
      * simpl. by rewrite lookup_insert_eq.
      * simpl. by rewrite !lookup_insert_ne.
      * intros q Hq. simpl. by rewrite lookup_insert_ne.
      * intros q Hq ->. done.
      * done.
Qed.

Lemma Autoescape_by_value_witness :
  ∃ s2, set_Autoescape demo_child_state (Some 2%positive) false = Some s2 ∧
        Autoescape <$> ectxs s2 !! 2%positive = Some false ∧
        ectxs s2 !! 1%positive = Some demo_root_ctx.
Proof.
  destruct (proj2 (proj2 Autoescape_by_value) demo_root.2 1%positive 2%positive
              demo_child_state demo_root_ctx)
    as (ec & _ & _ & H).
  - vm_compute. reflexivity.
  - vm_compute. reflexivity.
  - destruct (H false) as (s2 & H1 & H2 & H3 & _).
    exists s2. split; [exact H1 |]. split; [exact H2 | exact H3].
Defined.

(** ** Context.Update *)

Section UpdateLoop.

Implicit Types (s : state) (o oc : gmap string value)
  (kvs : list (string * value)).

Lemma Update_loop_spec kvs : ∀ s lc oc,
  maps s !! lc = Some oc →
  NoDup kvs.*1 →
  Update_loop s (Some lc) kvs
  = Some (with_maps s (<[lc := list_to_map kvs ∪ oc]> (maps s))).
Proof.
  induction kvs as [|[k v] kvs IH]; intros s lc oc Hlc Hnd.
  - simpl. rewrite (left_id_L ∅ (∪)).
    rewrite insert_id by done. by destruct s.
  - rewrite fmap_cons in Hnd. apply NoDup_cons in Hnd as [Hk Hnd].
    cbn [Update_loop mapContext_SetValue]. rewrite Hlc. simpl.
    rewrite (IH _ lc (<[k := v]> oc));
      [| simpl; by rewrite lookup_insert_eq | done].
    unfold with_maps. simpl. rewrite insert_insert_eq.
    do 3 f_equal. rewrite <- insert_union_l. symmetry. apply insert_union_r.
    by apply not_elem_of_list_to_map_1.
Qed.

Lemma Update_loop_nil_receiver s kvs :
  Update_loop s None kvs = if kvs is [] then Some s else None.
Proof. by destruct kvs as [|[k v] kvs]. Qed.

End UpdateLoop.

(** C10, as the code has it. For a receiver that is a map object (not the
    nil map) [Update] returns the receiver itself; afterwards the receiver
    binds every key of [other] to [other]'s value and every other key as
    before, and no other map object has changed.  This holds in whatever
    order the entries of [other] are visited, and for a nil [other], which
    has no entries. *)
Theorem Update_spec (order : gmap string value → list (string * value))
    (s : state) (lc : positive) (other : option loc)
    (oc o : gmap string value) :
  (∀ m, order m ≡ₚ map_to_list m) →
  maps s !! lc = Some oc →
  range_entries s other = Some o →
  ∃ s' oc',
    Update_ordered order s (Some lc) other = Some (Some lc, s') ∧
    maps s' !! lc = Some oc' ∧
    (∀ k v, o !! k = Some v → oc' !! k = Some v) ∧
    (∀ k, o !! k = None → oc' !! k = oc !! k) ∧
    (∀ l, l ≠ lc → maps s' !! l = maps s !! l) ∧
    ectxs s' = ectxs s ∧ templates s' = templates s ∧
    autoescape s' = autoescape s.
Proof.
  intros Hord Hlc Ho. unfold Update_ordered. rewrite Ho. simpl.
  assert (NoDup (order o).*1) as Hnd.
  { rewrite (Hord o). apply NoDup_fst_map_to_list. }
  rewrite (Update_loop_spec _ _ _ _ Hlc Hnd). simpl.
  rewrite (list_to_map_proper _ _ Hnd (Hord o)), list_to_map_to_list.
  eexists _, (o ∪ oc). split_and!; try done.
  - simpl. by rewrite lookup_insert_eq.
  - intros k v Hk. by apply lookup_union_Some_l.
  - intros k Hk. by apply lookup_union_r.
  - intros l Hl. simpl. by rewrite lookup_insert_ne.
Qed.

(** C10 as stated fails for the nil receiver: with [other = {a:1}],
    [Update] on a nil [Context] panics at the first assignment and returns
    nothing. *)
Lemma Update_nil_receiver_panics :
  Update demo_state None (Some 2%positive) = None ∧
  range_entries demo_state (Some 2%positive) = Some {[ "a" := VInt 1 ]}.
Proof. split; vm_compute; reflexivity. Qed.

Lemma Update_witness :
  ∃ s', Update demo_state (Some 2%positive) (Some 3%positive)
        = Some (Some 2%positive, s') ∧
        GetValue s' demo_base "a" = Some (VInt 2, true) ∧
        GetValue s' demo_base "b" = Some (VInt 3, true).
Proof.
  destruct (Update_spec map_to_list demo_state 2%positive (Some 3%positive)
              {[ "a" := VInt 1 ]} (<[ "a" := VInt 2 ]> {[ "b" := VInt 3 ]}))
    as (s' & oc' & H1 & H2 & H3 & _).
  - reflexivity.
  - vm_compute. reflexivity.
  - vm_compute. reflexivity.
  - exists s'. split; [exact H1 |]. simpl. rewrite H2. simpl.
    rewrite (H3 "a" (VInt 2)), (H3 "b" (VInt 3)); [done | |]; vm_compute; reflexivity.
Defined.


(** * Further properties of the code *)

(** ** Writes and reads through the stores *)

Section Writes.

Implicit Types (s : state) (c : context) (k n : string) (v : value).

(** [SetValue] in closed form: one entry of the write target replaced. *)
Lemma SetValue_closed_form s c k v :
  SetValue s c k v
  = l ← write_target c;
    o ← maps s !! l;
    Some (with_maps s (<[l := <[k := v]> (o : gmap string value)]> (maps s))).
Proof.
  induction c as [|[l|]|a IHa b IHb]; simpl; try done.
Qed.

Lemma with_maps_with_maps s m1 m2 :
  with_maps (with_maps s m1) m2 = with_maps s m2.
Proof. done. Qed.

(** A read of the key [n] sees the entries of that key only. *)
Lemma GetValue_other_key s c l o k v n :
  maps s !! l = Some o → n ≠ k →
  GetValue (with_maps s (<[l := <[k := v]> o]> (maps s))) c n = GetValue s c n.
Proof.
  intros Hl Hne. induction c as [|[l'|]|a IHa b IHb]; simpl; try done.
  - destruct (decide (l = l')) as [<-|Hll].
    + rewrite lookup_insert_eq, Hl. simpl. by rewrite lookup_insert_ne.
    + by rewrite lookup_insert_ne.
  - by rewrite IHb, IHa.
Qed.

End Writes.

(** X1. A value written through any store is read back through that store
    with found = true, and the write changes no read of a different key,
    through any store whatever (aliased or not). *)
Theorem SetValue_read_back (s : state) (c : context) (k : string) (v : value)
    (s' : state) :
  SetValue s c k v = Some s' →
  GetValue s' c k = Some (v, true) ∧
  ∀ c' n, n ≠ k → GetValue s' c' n = GetValue s c' n.
Proof.
  intros H. split; [by eapply SetValue_GetValue |].
  intros c' n Hne. apply SetValue_inv in H as (l & o & _ & Hl & ->).
  by apply GetValue_other_key.
Qed.

Lemma SetValue_read_back_witness :
  ∃ s', SetValue demo_state (mergeContexts demo_base demo_overlay) "a" (VInt 7) = Some s' ∧
        GetValue s' (mergeContexts demo_base demo_overlay) "a" = Some (VInt 7, true) ∧
        GetValue s' demo_overlay "b" = Some (VInt 3, true).
Proof.
  destruct (SetValue demo_state (mergeContexts demo_base demo_overlay) "a" (VInt 7))
    as [s'|] eqn:E; [| vm_compute in E; discriminate].
  exists s'. split; [reflexivity |].
  destruct (SetValue_read_back _ _ _ _ _ E) as [H1 H2].
  split; [exact H1 |]. rewrite (H2 demo_overlay "b"); [| discriminate].
  vm_compute. reflexivity.
Defined.

(** X2. A write through a store succeeds exactly when the store has a
    write target that is a map object: it panics on the nil interface and
    when the innermost overlay is the nil map, whatever the bases are. *)
Theorem SetValue_succeeds_iff (s : state) (c : context) (k : string) (v : value) :
  is_Some (SetValue s c k v) ↔ ∃ l, write_target c = Some l ∧ l ∈ dom (maps s).
Proof.
  rewrite SetValue_closed_form. split.
  - intros [s' H]. destruct (write_target c) as [l|]; simpl in H; [|done].
    destruct (maps s !! l) as [o|] eqn:E; simpl in H; [|done].
    exists l. split; [done |]. by apply elem_of_dom_2 in E.
  - intros (l & Hw & [o Ho]%elem_of_dom). rewrite Hw. simpl. rewrite Ho. simpl.
    by eexists.
Qed.

(** X3. Of two writes of one key through one store the second wins: the
    state is the one the second write alone gives. *)
Theorem SetValue_overwrite (s : state) (c : context) (k : string) (v1 v2 : value)
    (s1 : state) :
  SetValue s c k v1 = Some s1 →
  SetValue s1 c k v2 = SetValue s c k v2.
Proof.
  intros (l & o & Hw & Hl & ->)%SetValue_inv.
  rewrite !SetValue_closed_form, Hw. simpl.
  rewrite lookup_insert_eq, Hl. simpl.
  by rewrite with_maps_with_maps, !insert_insert_eq.
Qed.

Lemma SetValue_overwrite_witness :
  ∃ s1, SetValue demo_state demo_base "a" (VInt 5) = Some s1 ∧
        SetValue s1 demo_base "a" (VInt 6) = SetValue demo_state demo_base "a" (VInt 6).
Proof.
  eexists. split; [vm_compute; reflexivity |].
  apply (SetValue_overwrite demo_state demo_base "a" (VInt 5) (VInt 6)).
  reflexivity.
Defined.

(** X4. Two writes commute when their keys differ or their write targets
    differ, panics included: both orders give the same state or both
    panic. *)
Theorem SetValue_commute (s : state) (c1 c2 : context) (k1 k2 : string)
    (v1 v2 : value) :
  k1 ≠ k2 ∨ write_target c1 ≠ write_target c2 →
  (s1 ← SetValue s c1 k1 v1; SetValue s1 c2 k2 v2)
  = (s2 ← SetValue s c2 k2 v2; SetValue s2 c1 k1 v1).
Proof.
  intros Hdiff. rewrite (SetValue_closed_form s c1), (SetValue_closed_form s c2).
  destruct (write_target c1) as [l1|] eqn:W1; simpl.
  2:{ destruct (write_target c2) as [l2|]; simpl; [|done].
      destruct (maps s !! l2); simpl; [|done].
      by rewrite SetValue_closed_form, W1. }
  destruct (write_target c2) as [l2|] eqn:W2; simpl.
  2:{ destruct (maps s !! l1); simpl; [|done].
      by rewrite SetValue_closed_form, W2. }
  destruct (maps s !! l1) as [o1|] eqn:E1; simpl.
  2:{ destruct (maps s !! l2) as [o2|] eqn:E2; simpl; [|done].
      rewrite SetValue_closed_form, W1. simpl.
      destruct (decide (l2 = l1)) as [->|Hl]; [congruence |].
      by rewrite lookup_insert_ne, E1. }
  rewrite SetValue_closed_form, W2. simpl.
  destruct (decide (l1 = l2)) as [<-|Hl].
  - rewrite lookup_insert_eq, E1. simpl.
    rewrite SetValue_closed_form, W1. simpl. rewrite lookup_insert_eq. simpl.
    rewrite !with_maps_with_maps, !insert_insert_eq.
    destruct Hdiff as [Hk|Hw]; [| congruence].
    by rewrite (insert_insert_ne o1 k1 k2).
  - rewrite lookup_insert_ne by done.
    destruct (maps s !! l2) as [o2|] eqn:E2; simpl; [|done].
    rewrite SetValue_closed_form, W1. simpl.
    rewrite lookup_insert_ne, E1 by done. simpl.
    rewrite !with_maps_with_maps. f_equal. f_equal.
    by apply insert_insert_ne.
Qed.

Lemma SetValue_commute_witness :
  (s1 ← SetValue demo_state demo_base "a" (VInt 5); SetValue s1 demo_overlay "a" (VInt 6))
  = (s2 ← SetValue demo_state demo_overlay "a" (VInt 6); SetValue s2 demo_base "a" (VInt 5)).
Proof.
  apply SetValue_commute. right. vm_compute. discriminate.
Defined.

Lemma SetValue_succeeds_iff_witness :
  is_Some (SetValue demo_state (mergeContexts ctxNil demo_overlay) "z" VNil) ∧
  ¬ is_Some (SetValue demo_state (mergeContexts demo_base (ctxMap None)) "z" VNil).
Proof.
  split.
  - apply SetValue_succeeds_iff. exists 3%positive. split; [reflexivity |].
    apply (bool_decide_unpack _). vm_compute. exact I.
  - intros H. apply SetValue_succeeds_iff in H as (l & Hl & _). discriminate.
Defined.

(** ** Listings and lookups *)

Section Listings.

Implicit Types (s : state) (a b c : context) (ids : list string) (k : string).

(** A store that can be listed can be read at every key. *)
Lemma GetIdentifiers_GetValue_total s c ids k :
  GetIdentifiers s c ids → is_Some (GetValue s c k).
Proof.
  induction 1 as [|l o ids Ho Hp|a b la la' lb lb' Ha IHa Ha' _ Hb IHb Hb' _];
    simpl.
  - by eexists.
  - rewrite Ho. simpl. by eexists.
  - destruct IHb as [[v had] ->]. simpl. destruct had; simpl; [by eexists | done].
Qed.

Lemma GetIdentifiers_found_iff s c ids :
  GetIdentifiers s c ids →
  ∀ k, k ∈ ids ↔ ∃ v, GetValue s c k = Some (v, true).
Proof.
  induction 1 as [|l o ids Ho Hp|a b la la' lb lb' Ha _ Ha' IHa Hb _ Hb' IHb];
    intros k.
  - apply (GetIdentifiers_map_spec s None []). constructor.
  - apply (GetIdentifiers_map_spec s (Some l) ids). by econstructor.
  - rewrite app_nil_l.
    rewrite (guarded_append la la'), (guarded_append lb lb');
      [| by eapply Permutation_length, GetIdentifiers_perm
       | by eapply Permutation_length, GetIdentifiers_perm].
    rewrite elem_of_app, IHa, IHb. simpl.
    destruct (GetIdentifiers_GetValue_total s b lb k Hb) as [[v had] Hv].
    rewrite Hv. simpl. destruct had; simpl.
    + split; [intros _; by exists v | intros _; right; by exists v].
    + split; [intros [H|[w [= _ ]]]; done | intros H; by left].
Qed.

Lemma no_nil_GetIdentifiers_run s c :
  no_nil_interface c → closed s c → is_Some (GetIdentifiers_run s c).
Proof.
  unfold closed.
  induction c as [|[l|]|a IHa b IHb]; simpl; intros Hnn Hcl.
  - done.
  - assert (l ∈ dom (maps s)) as [o ->]%elem_of_dom by set_solver.
    simpl. by eexists.
  - by eexists.
  - destruct Hnn as [Ha Hb].
    destruct IHa as [la ->]; [done | set_solver |].
    destruct IHb as [lb ->]; [done | set_solver |].
    simpl. by eexists.
Qed.

Lemma GetIdentifiers_no_nil s c ids :
  GetIdentifiers s c ids → no_nil_interface c ∧ closed s c.
Proof.
  unfold closed.
  induction 1 as [|l o ids Ho Hp|a b la la' lb lb' Ha IHa Ha' _ Hb IHb Hb' _];
    simpl.
  - split; [done | set_solver].
  - split; [done |]. apply elem_of_dom_2 in Ho. set_solver.
  - destruct IHa, IHb. split; [done | by apply union_least].
Qed.

End Listings.

(** A name is listed once for every flat store of the view that binds it. *)
Lemma GetIdentifiers_occurrences (s : state) (c : context) (ids : list string)
    (k : string) :
  GetIdentifiers s c ids →
  length (filter (λ x, x = k) ids) = occurrences s c k.
Proof.
  induction 1 as [|l o ids Ho Hp|a b la la' lb lb' Ha _ Ha' IHa Hb _ Hb' IHb].
  - done.
  - pose proof (GetIdentifiers_map_spec s (Some l) ids
                  (GetIdentifiers_map s l o ids Ho Hp)) as [Hnd Hin].
    simpl in *. rewrite Ho in *. simpl in Hin.
    destruct (decide (is_Some (o !! k))) as [[v Hv]|Hno].
    + apply filter_eq_NoDup; [done |]. apply Hin. exists v. by rewrite Hv.
    + rewrite filter_eq_absent; [done |].
      intros [v Hv]%Hin. apply Hno. destruct (o !! k); [by eexists | done].
  - rewrite app_nil_l.
    rewrite (guarded_append la la'), (guarded_append lb lb');
      [| by eapply Permutation_length, GetIdentifiers_perm
       | by eapply Permutation_length, GetIdentifiers_perm].
    simpl. rewrite filter_app, length_app. by rewrite IHa, IHb.
Qed.

(** C8, as the code has it.  The listing of a merged view is a listing of
    the base followed by a listing of the overlay, nothing removed, so a
    name occurs in it once for every flat store inside the view that
    binds it: twice when both sides are flat stores that bind it, more
    often when a side is itself a view that lists it more than once.  The
    listing of a flat store has no repetition and holds exactly the names
    the store binds.  A listing is produced for every store that holds no
    nil interface and refers to existing maps only. *)
Theorem GetIdentifiers_spec :
  (∀ s a b ids,
     GetIdentifiers s (mergeContexts a b) ids ↔
     ∃ la lb, GetIdentifiers s a la ∧ GetIdentifiers s b lb ∧ ids = la ++ lb) ∧
  (∀ s m ids,
     GetIdentifiers s (ctxMap m) ids →
     NoDup ids ∧ ∀ k, k ∈ ids ↔ ∃ v, GetValue s (ctxMap m) k = Some (v, true)) ∧
  (∀ s c ids k,
     GetIdentifiers s c ids →
     length (filter (λ x, x = k) ids) = occurrences s c k) ∧
  (∀ s ma mb ids k,
     GetIdentifiers s (mergeContexts (ctxMap ma) (ctxMap mb)) ids →
     (∃ v, GetValue s (ctxMap ma) k = Some (v, true)) →
     (∃ v, GetValue s (ctxMap mb) k = Some (v, true)) →
     length (filter (λ x, x = k) ids) = 2) ∧
  (∀ s c ids, GetIdentifiers_run s c = Some ids → GetIdentifiers s c ids) ∧
  (∀ s c, no_nil_interface c → closed s c → ∃ ids, GetIdentifiers s c ids).
Proof.
  split_and!.
  - apply GetIdentifiers_merged_iff.
  - apply GetIdentifiers_map_spec.
  - apply GetIdentifiers_occurrences.
  - intros s ma mb ids k (la & lb & Ha & Hb & ->)%GetIdentifiers_merged_iff Hka Hkb.
    apply GetIdentifiers_map_spec in Ha as [Hnda Hina].
    apply GetIdentifiers_map_spec in Hb as [Hndb Hinb].
    rewrite filter_app, length_app.
    rewrite !filter_eq_NoDup; [done | done | by apply Hinb | done | by apply Hina].
  - apply GetIdentifiers_run_sound.
  - intros s c Hnn Hcl.
    destruct (no_nil_GetIdentifiers_run s c Hnn Hcl) as [ids H].
    exists ids. by apply GetIdentifiers_run_sound.
Qed.

(** C8 as stated fails on nested views: with "x" set in the Private store
    of a root scope, of its child and of its grandchild, both sides of the
    grandchild's Private view bind "x", and every listing of the view
    holds "x" three times, not twice. *)
Lemma GetIdentifiers_nested_thrice :
  ∃ s base overlay,
    demo_nested = Some (s, mergeContexts base overlay) ∧
    (∃ v, GetValue s base "x" = Some (v, true)) ∧
    (∃ v, GetValue s overlay "x" = Some (v, true)) ∧
    (∃ ids, GetIdentifiers s (mergeContexts base overlay) ids) ∧
    ∀ ids, GetIdentifiers s (mergeContexts base overlay) ids →
           length (filter (λ x, x = "x") ids) = 3.
Proof.
  eexists _, _, _. split; [vm_compute; reflexivity |].
  split; [eexists; vm_compute; reflexivity |].
  split; [eexists; vm_compute; reflexivity |].
  split.
  - eexists. apply GetIdentifiers_run_sound. vm_compute. reflexivity.
  - intros ids H. rewrite (GetIdentifiers_occurrences _ _ _ "x" H).
    vm_compute. reflexivity.
Qed.

Lemma GetIdentifiers_witness :
  ∃ ids, GetIdentifiers demo_state (mergeContexts demo_base demo_overlay) ids ∧
         length (filter (λ x, x = "a") ids) = 2 ∧
         length (filter (λ x, x = "b") ids) = 1.
Proof.
  destruct GetIdentifiers_spec as (_ & _ & Hocc & Hdup & Hrun & Hex).
  destruct (Hex demo_state (mergeContexts demo_base demo_overlay)) as [ids H].
  - simpl. split; exact I.
  - unfold closed. apply (bool_decide_unpack _). vm_compute. exact I.
  - exists ids. split; [exact H |]. split.
    + apply (Hdup demo_state (Some 2%positive) (Some 3%positive) ids "a" H).
      * exists (VInt 1). vm_compute. reflexivity.
      * exists (VInt 2). vm_compute. reflexivity.
    + rewrite (Hocc _ _ _ "b" H). vm_compute. reflexivity.
Defined.

(** X5. Listing and lookup agree on every store, merged views included: a
    name is in a listing of the store exactly when [GetValue] finds it. *)
Theorem GetIdentifiers_agrees_with_GetValue (s : state) (c : context)
    (ids : list string) (k : string) :
  GetIdentifiers s c ids →
  (k ∈ ids ↔ ∃ v, GetValue s c k = Some (v, true)).
Proof. intros H. by apply GetIdentifiers_found_iff. Qed.

Lemma GetIdentifiers_agrees_with_GetValue_witness :
  ∃ ids, GetIdentifiers demo_state (mergeContexts demo_base demo_overlay) ids ∧
         "b" ∈ ids ∧ "c" ∉ ids.
Proof.
  destruct (GetIdentifiers_run demo_state (mergeContexts demo_base demo_overlay))
    as [ids|] eqn:E; [| vm_compute in E; discriminate].
  apply GetIdentifiers_run_sound in E.
  exists ids. split; [exact E |]. split.
  - apply (GetIdentifiers_agrees_with_GetValue _ _ _ "b" E).
    exists (VInt 3). vm_compute. reflexivity.
  - intros [v Hv]%(GetIdentifiers_agrees_with_GetValue _ _ _ "c" E).
    vm_compute in Hv. discriminate.
Defined.

(** X6. After a write of the key [k] through a store, the listings of the
    store hold [k] and otherwise exactly the names they held before. *)
Theorem GetIdentifiers_after_SetValue (s : state) (c : context) (k : string)
    (v : value) (s' : state) (ids ids' : list string) :
  SetValue s c k v = Some s' →
  GetIdentifiers s c ids →
  GetIdentifiers s' c ids' →
  ∀ n, n ∈ ids' ↔ n = k ∨ n ∈ ids.
Proof.
  intros Hset Hids Hids' n.
  rewrite (GetIdentifiers_found_iff _ _ _ Hids' n),
          (GetIdentifiers_found_iff _ _ _ Hids n).
  destruct (decide (n = k)) as [->|Hne].
  - split; [by left |]. intros _. exists v. by eapply SetValue_GetValue.
  - apply SetValue_inv in Hset as (l & o & _ & Hl & ->).
    rewrite (GetValue_other_key s c l o k v n Hl Hne).
    split; [by right | by intros [?|?]].
Qed.

Lemma GetIdentifiers_after_SetValue_witness :
  ∃ s' ids', SetValue demo_state demo_base "n" VNil = Some s' ∧
             GetIdentifiers s' demo_base ids' ∧
             "n" ∈ ids' ∧ "a" ∈ ids'.
Proof.
  destruct (SetValue demo_state demo_base "n" VNil) as [s'|] eqn:E;
    [| vm_compute in E; discriminate].
  assert (is_Some (GetIdentifiers_run s' demo_base)) as [ids' E'].
  { apply no_nil_GetIdentifiers_run; [exact I |].
    unfold closed. rewrite (SetValue_dom _ _ _ _ _ E).
    apply (bool_decide_unpack _). vm_compute. exact I. }
  apply GetIdentifiers_run_sound in E'.
  assert (GetIdentifiers demo_state demo_base ["a"]) as H0.
  { apply GetIdentifiers_run_sound. vm_compute. reflexivity. }
  exists s', ids'. split; [reflexivity |]. split; [exact E' |].
  split.
  - apply (GetIdentifiers_after_SetValue _ _ _ _ _ _ _ E H0 E'). by left.
  - apply (GetIdentifiers_after_SetValue _ _ _ _ _ _ _ E H0 E'). right.
    apply list_elem_of_singleton. reflexivity.
Defined.

(** X7. A store can be listed exactly when it holds no nil interface and
    every map it refers to exists; such a store is read at every key
    without a panic. *)
Theorem stores_without_nil_never_panic (s : state) (c : context) :
  ((∃ ids, GetIdentifiers s c ids) ↔ no_nil_interface c ∧ closed s c) ∧
  (no_nil_interface c → closed s c → ∀ k, is_Some (GetValue s c k)).
Proof.
  assert (no_nil_interface c → closed s c → ∃ ids, GetIdentifiers s c ids) as Hex.
  { intros Hnn Hcl. destruct (no_nil_GetIdentifiers_run s c Hnn Hcl) as [ids H].
    exists ids. by apply GetIdentifiers_run_sound. }
  split.
  - split; [intros [ids H]; by eapply GetIdentifiers_no_nil | intros [? ?]; auto].
  - intros Hnn Hcl k. destruct (Hex Hnn Hcl) as [ids H].
    by eapply GetIdentifiers_GetValue_total.
Qed.

Lemma stores_without_nil_never_panic_witness :
  is_Some (GetValue demo_state (mergeContexts (ctxMap None) demo_overlay) "zzz").
Proof.
  apply (proj2 (stores_without_nil_never_panic demo_state
                  (mergeContexts (ctxMap None) demo_overlay))).
  - simpl. split; exact I.
  - unfold closed. apply (bool_decide_unpack _). vm_compute. exact I.
Defined.

(** ** Construction of scopes *)

Section Construction.

Implicit Types (s : state) (c : context) (e : ExecutionContext).

(** A listing looks at the map objects of the context only. *)
Lemma GetIdentifiers_frame s s' c ids :
  (∀ l, l ∈ locs c → maps s' !! l = maps s !! l) →
  GetIdentifiers s c ids → GetIdentifiers s' c ids.
Proof.
  intros Hsame H.
  induction H as [|l o ids Ho Hp|a b la la' lb lb' Ha IHa Ha' IHa' Hb IHb Hb' IHb'].
  - constructor.
  - apply (GetIdentifiers_map s' l o); [| done].
    rewrite Hsame; [done | simpl; by apply elem_of_singleton].
  - simpl in Hsame.
    constructor; [apply IHa | apply IHa' | apply IHb | apply IHb'];
      intros l Hl; apply Hsame, elem_of_union; auto.
Qed.

(** Reads through a store that exists are the same in a state that has
    kept its map objects. *)
Lemma GetValue_closed_frame s s' c n :
  closed s c →
  (∀ l, l ∈ dom (maps s) → maps s' !! l = maps s !! l) →
  GetValue s' c n = GetValue s c n.
Proof. intros Hcl Hsame. apply GetValue_frame. intros l Hl. by apply Hsame, Hcl. Qed.

Lemma insert_fresh_keeps (ms : gmap positive (gmap string value)) lo o l :
  lo ∉ dom ms → l ∈ dom ms → <[lo := o]> ms !! l = ms !! l.
Proof. intros Hlo Hl. apply lookup_insert_ne. by intros <-. Qed.

End Construction.

(** X8. The Public store of a new root scope reads, for every name,
    exactly as the store the caller passed in (a nil store panics on each
    read), and its listings are the listings of that store. *)
Theorem root_Public_reads_user_store (s : state) (tpl : option loc) (ctx : context)
    (p : positive) (s1 : state) :
  closed s ctx →
  newExecutionContext s tpl ctx = (p, s1) →
  ∃ e, ectxs s1 !! p = Some e ∧
       (∀ n, GetValue s1 (Public e) n = GetValue s ctx n) ∧
       (∀ ids, GetIdentifiers s1 (Public e) ids ↔ GetIdentifiers s ctx ids).
Proof.
  intros Hcl Hnew.
  apply newExecutionContext_spec in Hnew
    as (lp & lo & Hlp & Hlo & Hne & Hp & Hm & Hes & _ & _).
  assert (∀ l, l ∈ locs ctx → maps s1 !! l = maps s !! l) as Hsame.
  { intros l Hl%Hcl. rewrite Hm, !lookup_insert_ne; [done | |]; by intros <-. }
  assert (∀ l, l ∈ locs ctx → maps s !! l = maps s1 !! l) as Hsame'.
  { intros l Hl. symmetry. by apply Hsame. }
  assert (maps s1 !! lo = Some ∅) as Hov by (by rewrite Hm, lookup_insert_eq).
  eexists. split; [by rewrite Hes, lookup_insert_eq |]. simpl. split.
  - intros n. rewrite Hov. simpl. rewrite lookup_empty. simpl.
    by apply GetValue_frame.
  - intros ids. rewrite (GetIdentifiers_merged_iff s1 ctx (ctxMap (Some lo)) ids).
    split.
    + intros (la & lb & Ha & Hb & ->).
      apply GetIdentifiers_map_spec in Hb as [_ Hb].
      assert (lb = []) as ->.
      { destruct lb as [|x lb]; [done |].
        destruct (proj1 (Hb x)) as [v Hv]; [by left |].
        simpl in Hv. rewrite Hov in Hv. simpl in Hv.
        by rewrite lookup_empty in Hv. }
      rewrite app_nil_r. by eapply GetIdentifiers_frame.
    + intros H. exists ids, []. split_and!.
      * by eapply GetIdentifiers_frame.
      * apply (GetIdentifiers_map s1 lo ∅); [done |]. by rewrite map_to_list_empty.
      * by rewrite app_nil_r.
Qed.

Lemma root_Public_reads_user_store_witness :
  ∃ e, ectxs demo_root.2 !! demo_root.1 = Some e ∧
       GetValue demo_root.2 (Public e) "a" = Some (VInt 1, true).
Proof.
  destruct (root_Public_reads_user_store demo_state (Some 1%positive) demo_base
              demo_root.1 demo_root.2) as (e & He & Hget & _).
  - unfold closed. apply (bool_decide_unpack _). vm_compute. exact I.
  - reflexivity.
  - exists e. split; [exact He |]. rewrite Hget. vm_compute. reflexivity.
Defined.

(** X9. The Private store of a new root scope binds the key "pongo2" and
    nothing else; its Shared store is the nil interface, so every read,
    write or listing through it panics; its template is the one passed in
    and its macro depth is zero. *)
Theorem root_Private_and_Shared (s : state) (tpl : option loc) (ctx : context)
    (p : positive) (s1 : state) :
  newExecutionContext s tpl ctx = (p, s1) →
  ∃ e, ectxs s1 !! p = Some e ∧
       template e = tpl ∧ macroDepth e = 0%Z ∧
       GetValue s1 (Private e) "pongo2" = Some (VMap pongo2MetaContext, true) ∧
       (∀ n, n ≠ "pongo2" → GetValue s1 (Private e) n = Some (VNil, false)) ∧
       (∀ ids, GetIdentifiers s1 (Private e) ids ↔ ids = ["pongo2"]) ∧
       (∀ k, GetValue s1 (Shared e) k = None) ∧
       (∀ k v, SetValue s1 (Shared e) k v = None) ∧
       (∀ ids, ¬ GetIdentifiers s1 (Shared e) ids).
Proof.
  intros Hnew.
  apply newExecutionContext_spec in Hnew
    as (lp & lo & Hlp & Hlo & Hne & Hp & Hm & Hes & _ & _).
  assert (maps s1 !! lp = Some {[ "pongo2" := VMap pongo2MetaContext ]}) as Hpriv.
  { by rewrite Hm, lookup_insert_ne, lookup_insert_eq. }
  eexists. split; [by rewrite Hes, lookup_insert_eq |]. simpl.
  split_and!; try done.
  - rewrite Hpriv. simpl. by rewrite lookup_singleton_eq.
  - intros n Hn. rewrite Hpriv. simpl. by rewrite lookup_singleton_ne.
  - intros ids. split.
    + inversion 1 as [|l o ids0 Ho Hperm|]; subst.
      rewrite Hpriv in Ho. injection Ho as <-.
      rewrite map_to_list_singleton in Hperm. simpl in Hperm.
      by apply Permutation_singleton_r in Hperm.
    + intros ->. apply (GetIdentifiers_map s1 lp _ _ Hpriv).
      by rewrite map_to_list_singleton.
  - intros ids. inversion 1.
Qed.

Lemma root_Private_and_Shared_witness :
  ∃ e, ectxs demo_root.2 !! demo_root.1 = Some e ∧
       GetValue demo_root.2 (Private e) "a" = Some (VNil, false) ∧
       SetValue demo_root.2 (Shared e) "a" VNil = None.
Proof.
  destruct (root_Private_and_Shared demo_state (Some 1%positive) demo_base
              demo_root.1 demo_root.2 eq_refl)
    as (e & He & _ & _ & _ & Hother & _ & _ & Hset & _).
  exists e. split; [exact He |]. split; [apply Hother; discriminate | apply Hset].
Defined.

(** X10. [newExecutionContext] changes nothing that exists: every map
    object, scope struct and template and the package variable are as
    before, the scope it returns is at an address not in use, and every
    read through a store that existed is unchanged. *)
Theorem newExecutionContext_frame (s : state) (tpl : option loc) (ctx : context)
    (p : positive) (s1 : state) :
  newExecutionContext s tpl ctx = (p, s1) →
  (p ∉ dom (ectxs s)) ∧
  (∀ l, l ∈ dom (maps s) → maps s1 !! l = maps s !! l) ∧
  (∀ q, q ∈ dom (ectxs s) → ectxs s1 !! q = ectxs s !! q) ∧
  templates s1 = templates s ∧ autoescape s1 = autoescape s ∧
  (∀ c n, closed s c → GetValue s1 c n = GetValue s c n).
Proof.
  intros Hnew.
  apply newExecutionContext_spec in Hnew
    as (lp & lo & Hlp & Hlo & Hne & Hp & Hm & Hes & Ht & Ha).
  assert (∀ l, l ∈ dom (maps s) → maps s1 !! l = maps s !! l) as Hsame.
  { intros l Hl. rewrite Hm, !lookup_insert_ne; [done | |]; by intros <-. }
  split_and!; try done.
  - intros q Hq. rewrite Hes, lookup_insert_ne; [done |]. by intros <-.
  - intros c n Hcl. by apply GetValue_closed_frame.
Qed.

Lemma newExecutionContext_frame_witness :
  GetValue demo_root.2 (mergeContexts demo_base demo_overlay) "b"
  = GetValue demo_state (mergeContexts demo_base demo_overlay) "b".
Proof.
  apply (newExecutionContext_frame demo_state (Some 1%positive) demo_base
           demo_root.1 demo_root.2 eq_refl).
  unfold closed. apply (bool_decide_unpack _). vm_compute. exact I.
Defined.

(** X11. [NewChildExecutionContext] succeeds exactly when the parent is an
    existing scope (a nil parent panics), and then changes nothing that
    exists: map objects, scope structs, the parent included, templates
    and the package variable are as before and the child is at an address
    not in use. *)
Theorem NewChildExecutionContext_frame (s : state) (parent : option loc) :
  (is_Some (NewChildExecutionContext s parent)
   ↔ ∃ p, parent = Some p ∧ p ∈ dom (ectxs s)) ∧
  (∀ child s1,
     NewChildExecutionContext s parent = Some (child, s1) →
     (child ∉ dom (ectxs s)) ∧
     (∀ l, l ∈ dom (maps s) → maps s1 !! l = maps s !! l) ∧
     (∀ q, q ∈ dom (ectxs s) → ectxs s1 !! q = ectxs s !! q) ∧
     templates s1 = templates s ∧ autoescape s1 = autoescape s ∧
     (∀ c n, closed s c → GetValue s1 c n = GetValue s c n)).
Proof.
  split.
  - split.
    + intros [[c s1] H]. destruct parent as [p|]; [|done].
      apply NewChildExecutionContext_spec in H as (e & lo & He & _).
      exists p. split; [done |]. by apply elem_of_dom_2 in He.
    + intros (p & -> & [e He]%elem_of_dom).
      by eapply NewChildExecutionContext_total.
  - intros child s1 H. destruct parent as [p|]; [|done].
    apply NewChildExecutionContext_spec in H
      as (e & lo & He & -> & Hfresh & Hm & Hes & Ht & Ha).
    assert (∀ l, l ∈ dom (maps s) → maps s1 !! l = maps s !! l) as Hsame.
    { intros l Hl. rewrite Hm. apply insert_fresh_keeps; [apply is_fresh | done]. }
    split_and!; try done.
    + intros q Hq. rewrite Hes, lookup_insert_ne; [done |]. by intros <-.
    + intros c n Hcl. by apply GetValue_closed_frame.
Qed.

Lemma NewChildExecutionContext_frame_witness :
  ¬ is_Some (NewChildExecutionContext demo_state None) ∧
  is_Some (NewChildExecutionContext demo_root.2 (Some 1%positive)).
Proof.
  split.
  - intros (p & Hp & _)%NewChildExecutionContext_frame. discriminate.
  - apply NewChildExecutionContext_frame. exists 1%positive.
    split; [reflexivity |]. apply (bool_decide_unpack _). vm_compute. exact I.
Defined.

(** ** Nested scopes *)

(** X12. Two children of one parent have Private stores of their own: a
    write through the Private of either always succeeds and changes no
    read of the other's Private, which still reads as the parent's
    Private did. *)
Theorem sibling_Private_isolated (s : state) (parent : positive)
    (ep : ExecutionContext) (c1 : positive) (s1 : state) (c2 : positive)
    (s2 : state) (e1 e2 : ExecutionContext) :
  ectxs s !! parent = Some ep →
  closed s (Private ep) →
  NewChildExecutionContext s (Some parent) = Some (c1, s1) →
  NewChildExecutionContext s1 (Some parent) = Some (c2, s2) →
  ectxs s2 !! c1 = Some e1 →
  ectxs s2 !! c2 = Some e2 →
  c1 ≠ c2 ∧
  ∀ k v,
    (∃ s3, SetValue s2 (Private e1) k v = Some s3 ∧
           GetValue s3 (Private e1) k = Some (v, true) ∧
           ∀ n, GetValue s3 (Private e2) n = GetValue s (Private ep) n) ∧
    (∃ s3, SetValue s2 (Private e2) k v = Some s3 ∧
           GetValue s3 (Private e2) k = Some (v, true) ∧
           ∀ n, GetValue s3 (Private e1) n = GetValue s (Private ep) n).
Proof.
  intros Hp Hcl Hn1 Hn2 H1 H2.
  apply NewChildExecutionContext_spec in Hn1
    as (e & lo1 & He & -> & Hf1 & Hm1 & Hes1 & _ & _).
  rewrite Hp in He. injection He as <-.
  assert (c1 ≠ parent) as Hc1p.
  { intros ->. apply Hf1. by apply elem_of_dom_2 in Hp. }
  apply NewChildExecutionContext_spec in Hn2
    as (e & lo2 & He & -> & Hf2 & Hm2 & Hes2 & _ & _).
  rewrite Hes1, lookup_insert_ne, Hp in He by done. injection He as <-.
  set (lo1 := fresh (dom (maps s))) in *.
  set (lo2 := fresh (dom (maps s1))) in *.
  assert (lo1 ∉ dom (maps s)) as Hlo1 by apply is_fresh.
  assert (lo2 ∉ dom (maps s1)) as Hlo2 by apply is_fresh.
  assert (lo1 ≠ lo2) as Hne.
  { intros E. apply Hlo2. rewrite <- E, Hm1, dom_insert_L. set_solver. }
  assert (lo1 ∉ locs (Private ep)) as Hs1 by (intros Hin; by apply Hcl in Hin).
  assert (lo2 ∉ locs (Private ep)) as Hs2.
  { intros Hin%Hcl. apply Hlo2. rewrite Hm1, dom_insert_L. set_solver. }
  assert (c1 ≠ c2) as Hcc.
  { intros ->. apply Hf2. rewrite Hes1, dom_insert_L. set_solver. }
  rewrite Hes2, lookup_insert_ne, Hes1, lookup_insert_eq in H1 by done.
  injection H1 as <-.
  rewrite Hes2, lookup_insert_eq in H2. injection H2 as <-. simpl.
  assert (maps s2 !! lo1 = Some ∅) as Ho1.
  { by rewrite Hm2, lookup_insert_ne, Hm1, lookup_insert_eq. }
  assert (maps s2 !! lo2 = Some ∅) as Ho2 by (by rewrite Hm2, lookup_insert_eq).
  assert (∀ n, GetValue s2 (Private ep) n = GetValue s (Private ep) n) as Hbase.
  { intros n. apply GetValue_frame. intros l Hl.
    rewrite Hm2, Hm1, !lookup_insert_ne; [done | |]; by intros <-. }
  assert (∀ la lb k v, la ≠ lb → la ∉ locs (Private ep) →
            maps s2 !! la = Some ∅ → maps s2 !! lb = Some ∅ →
            ∃ s3, SetValue s2 (ctxMap (Some la)) k v = Some s3 ∧
              GetValue s3 (ctxMerged (Private ep) (ctxMap (Some la))) k = Some (v, true) ∧
              ∀ n, GetValue s3 (ctxMerged (Private ep) (ctxMap (Some lb))) n
                   = GetValue s (Private ep) n) as Hside.
  { intros la lb k v Hab Hla Ha Hb.
    destruct (SetValue_total s2 (ctxMap (Some la)) k v la) as [s3 H3];
      [done | by apply elem_of_dom_2 in Ha |].
    exists s3. split_and!; [done | |].
    - by apply (SetValue_GetValue s2 (ctxMerged (Private ep) (ctxMap (Some la)))).
    - intros n.
      rewrite (SetValue_GetValue_other s2 (ctxMap (Some la))
                 (ctxMerged (Private ep) (ctxMap (Some lb))) k v s3 n H3).
      + simpl. rewrite Hb. simpl. rewrite lookup_empty. simpl. apply Hbase.
      + intros l [= <-]. simpl. rewrite elem_of_union, elem_of_singleton.
        by intros [?|?]. }
  split; [done |]. intros k v. split.
  - by apply Hside.
  - by apply Hside.
Qed.

Lemma descends_keeps (s : state) (p : positive) (s' : state) (d : positive)
    (n : nat) :
  descends s p s' d n →
  (∀ q e, ectxs s !! q = Some e → ectxs s' !! q = Some e) ∧
  (∀ l, l ∈ dom (maps s) → maps s' !! l = maps s !! l).
Proof.
  induction 1 as [s p|s p s1 c s2 d n Hnew _ [IHe IHm]]; [done |].
  apply NewChildExecutionContext_spec in Hnew
    as (e & lo & He & -> & Hf & Hm & Hes & _ & _).
  split.
  - intros q eq Hq. apply IHe. rewrite Hes, lookup_insert_ne; [done |].
    intros <-. apply Hf. by apply elem_of_dom_2 in Hq.
  - intros l Hl. rewrite IHm.
    + rewrite Hm. apply insert_fresh_keeps; [apply is_fresh | done].
    + rewrite Hm, dom_insert_L. set_solver.
Qed.

(** X13. A scope reached by [n] nested derivations, with no write in
    between, has a Private store of [n] more overlays than its ancestor's
    that reads every name as the ancestor's Private did, and the
    ancestor's own Public, Shared and template references; the ancestor
    is unchanged. *)
Theorem descendant_reads_ancestor (s : state) (p : positive) (s' : state)
    (d : positive) (n : nat) (ep : ExecutionContext) :
  ectxs s !! p = Some ep →
  closed s (Private ep) →
  descends s p s' d n →
  ∃ ed, ectxs s' !! d = Some ed ∧
        overlay_depth (Private ed) = (overlay_depth (Private ep) + n)%nat ∧
        Public ed = Public ep ∧ Shared ed = Shared ep ∧
        template ed = template ep ∧
        (∀ k, GetValue s' (Private ed) k = GetValue s (Private ep) k) ∧
        ectxs s' !! p = Some ep.
Proof.
  intros Hp Hcl Hd. revert ep Hp Hcl.
  induction Hd as [s p|s p s1 c s2 d n Hnew Hd IH]; intros ep Hp Hcl.
  - exists ep. split_and!; first [done | lia].
  - pose proof (descends_keeps _ _ _ _ _ Hd) as [Hkeep _].
    apply NewChildExecutionContext_spec in Hnew
      as (e & lo & He & -> & Hf & Hm & Hes & _ & _).
    rewrite Hp in He. injection He as <-.
    set (lo := fresh (dom (maps s))) in *.
    assert (lo ∉ locs (Private ep)) as Hlo by (by apply closed_fresh).
    destruct (IH (mkExecutionContext (template ep) 0 (Autoescape ep) (Public ep)
                    (ctxMerged (Private ep) (ctxMap (Some lo))) (Shared ep)))
      as (ed & Hed & Hdepth & HP & HS & HT & Hread & _).
    { by rewrite Hes, lookup_insert_eq. }
    { unfold closed. simpl. rewrite Hm, dom_insert_L.
      apply union_least; [| set_solver].
      intros l Hl%Hcl. set_solver. }
    exists ed. simpl in *. split_and!; [done | lia | done | done | done | |].
    + intros k. rewrite Hread, Hm, lookup_insert_eq. simpl.
      rewrite lookup_empty. simpl. apply GetValue_frame.
      intros l Hl. rewrite Hm. apply lookup_insert_ne. by intros <-.
    + apply Hkeep. rewrite Hes, lookup_insert_ne; [done |].
      intros <-. apply Hf. by apply elem_of_dom_2 in Hp.
Qed.

Lemma sibling_Private_isolated_witness :
  ∃ s3, SetValue demo_sibling_state (Private demo_child_ctx) "x" (VInt 1) = Some s3 ∧
        GetValue s3 (Private demo_sibling_ctx) "x" = Some (VNil, false).
Proof.
  destruct (sibling_Private_isolated demo_root.2 1%positive demo_root_ctx
              2%positive demo_child_state 3%positive demo_sibling_state
              demo_child_ctx demo_sibling_ctx) as [_ H].
  - vm_compute. reflexivity.
  - unfold closed. apply (bool_decide_unpack _). vm_compute. exact I.
  - vm_compute. reflexivity.
  - vm_compute. reflexivity.
  - vm_compute. reflexivity.
  - vm_compute. reflexivity.
  - destruct (proj1 (H "x" (VInt 1))) as (s3 & H1 & _ & H3).
    exists s3. split; [exact H1 |]. rewrite H3. vm_compute. reflexivity.
Defined.

Lemma descendant_reads_ancestor_witness :
  ∃ ed, ectxs demo_child_state !! 2%positive = Some ed ∧
        overlay_depth (Private ed) = 1%nat ∧
        GetValue demo_child_state (Private ed) "pongo2"
        = Some (VMap pongo2MetaContext, true).
Proof.
  destruct (descendant_reads_ancestor demo_root.2 1%positive demo_child_state
              2%positive 1 demo_root_ctx) as (ed & H1 & H2 & _ & _ & _ & H3 & _).
  - vm_compute. reflexivity.
  - unfold closed. apply (bool_decide_unpack _). vm_compute. exact I.
  - apply (descends_child _ _ demo_child_state 2%positive).
    + vm_compute. reflexivity.
    + apply descends_here.
  - exists ed. split; [exact H1 |]. split; [exact H2 |].
    rewrite H3. vm_compute. reflexivity.
Defined.

(** ** Diagnostics: when the construction panics *)

(** X14. [OrigError] returns an error exactly when the scope pointer, the
    scope's template pointer and the template it points to exist; with a
    nil scope or a nil template it panics, token or no token, whatever
    the cause. *)
Theorem OrigError_succeeds_iff (s : state) (ctx : option loc)
    (err : option error) (token : option Token) :
  is_Some (OrigError s ctx err token) ↔
  ∃ l e tp tpl, ctx = Some l ∧ ectxs s !! l = Some e ∧
                template e = Some tp ∧ templates s !! tp = Some tpl.
Proof.
  unfold OrigError. split.
  - intros [E H]. destruct ctx as [l|]; simpl in H; [|done].
    destruct (ectxs s !! l) as [e|] eqn:He; simpl in H; [|done].
    destruct (template e) as [tp|] eqn:Ht; simpl in H; [|done].
    destruct (templates s !! tp) as [tpl|] eqn:Htpl; simpl in H; [|done].
    by exists l, e, tp, tpl.
  - intros (l & e & tp & tpl & -> & He & Ht & Htpl). simpl.
    rewrite He. simpl. rewrite Ht. simpl. rewrite Htpl. simpl.
    destruct token; by eexists.
Qed.

Lemma OrigError_succeeds_iff_witness :
  ¬ is_Some (OrigError (newExecutionContext demo_state None ctxNil).2
               (Some 1%positive) None (Some (mkToken "t.html" 1 1))) ∧
  ¬ is_Some (OrigError demo_root.2 None None None).
Proof.
  split.
  - intros (l & e & tp & tpl & Hl & He & Ht & _)%OrigError_succeeds_iff.
    injection Hl as <-. vm_compute in He. injection He as <-. discriminate.
  - intros (l & e & tp & tpl & Hl & _)%OrigError_succeeds_iff. discriminate.
Defined.

(** ** Identifier validation over sequences *)

Lemma checkForValidIdentifiers_None_iff (identifiers : list string) :
  checkForValidIdentifiers identifiers = None
  ↔ Forall valid_identifier identifiers.
Proof.
  induction identifiers as [|u l IH].
  - split; [constructor | done].
  - rewrite checkForValidIdentifiers_cons, Forall_cons, <- IH.
    destruct (MatchString reIdentifiers u) eqn:E; simpl.
    + apply reIdentifiers_spec in E. split; [done | by intros [_ ?]].
    + split; [done |]. intros [Hu%reIdentifiers_spec _]. congruence.
Qed.

(** X15. Validating a concatenation validates the first part and, only
    when that passes, the second; and whether a sequence passes does not
    depend on the order of its names. *)
Theorem checkForValidIdentifiers_app (l1 l2 : list string) :
  checkForValidIdentifiers (l1 ++ l2)
  = match checkForValidIdentifiers l1 with
    | Some e => Some e
    | None => checkForValidIdentifiers l2
    end ∧
  (∀ l, l ≡ₚ l1 →
        (checkForValidIdentifiers l = None ↔ checkForValidIdentifiers l1 = None)).
Proof.
  split.
  - induction l1 as [|u l1 IH]; [done |].
    rewrite <- app_comm_cons, !checkForValidIdentifiers_cons.
    by destruct (MatchString reIdentifiers u).
  - intros l Hp. rewrite !checkForValidIdentifiers_None_iff. by rewrite Hp.
Qed.

Lemma checkForValidIdentifiers_app_witness :
  checkForValidIdentifiers ["b"; "a"] = None ↔ checkForValidIdentifiers ["a"; "b"] = None.
Proof.
  apply (proj2 (checkForValidIdentifiers_app ["a"; "b"] [])).
  apply Permutation_swap.
Defined.

(** ** Context.Update and merged views *)

Section UpdateFacts.

Implicit Types (s : state) (o oc : gmap string value).

(** [Update] on a receiver that is a map object, in closed form. *)
Lemma Update_ordered_closed_form order s lc other oc o :
  (∀ m, order m ≡ₚ map_to_list m) →
  maps s !! lc = Some oc →
  range_entries s other = Some o →
  Update_ordered order s (Some lc) other
  = Some (Some lc, with_maps s (<[lc := o ∪ oc]> (maps s))).
Proof.
  intros Hord Hlc Ho. unfold Update_ordered. rewrite Ho. simpl.
  assert (NoDup (order o).*1) as Hnd.
  { rewrite (Hord o). apply NoDup_fst_map_to_list. }
  rewrite (Update_loop_spec _ _ _ _ Hlc Hnd). simpl.
  by rewrite (list_to_map_proper _ _ Hnd (Hord o)), list_to_map_to_list.
Qed.

Lemma with_maps_id s lc oc :
  maps s !! lc = Some oc → with_maps s (<[lc := oc]> (maps s)) = s.
Proof. intros H. unfold with_maps. rewrite insert_id by done. by destruct s. Qed.

Lemma order_empty_iff (order : gmap string value → list (string * value)) o :
  (∀ m, order m ≡ₚ map_to_list m) → order o = [] ↔ o = ∅.
Proof.
  intros Hord. rewrite <- map_to_list_empty_iff. split; intros H.
  - apply Permutation_nil_r. by rewrite <- (Hord o), H.
  - apply Permutation_nil_r. by rewrite (Hord o), H.
Qed.

End UpdateFacts.

(** X16. [Update] is the eager form of [mergeContexts]: after
    [c.Update(other)] the receiver reads, for every key, what the view
    [mergeContexts(c, other)] read before the call. *)
Theorem Update_reads_like_merged_view
    (order : gmap string value → list (string * value))
    (s : state) (lc : positive) (other : option loc)
    (oc o : gmap string value) :
  (∀ m, order m ≡ₚ map_to_list m) →
  maps s !! lc = Some oc →
  range_entries s other = Some o →
  ∃ s', Update_ordered order s (Some lc) other = Some (Some lc, s') ∧
        ∀ k, GetValue s' (ctxMap (Some lc)) k
             = GetValue s (mergeContexts (ctxMap (Some lc)) (ctxMap other)) k.
Proof.
  intros Hord Hlc Ho.
  rewrite (Update_ordered_closed_form order s lc other oc o Hord Hlc Ho).
  eexists. split; [done |]. intros k. simpl.
  rewrite lookup_insert_eq, Hlc. simpl.
  assert (mapContext_GetValue s other k
          = Some (match o !! k with Some v => (v, true) | None => (VNil, false) end))
    as ->.
  { destruct other as [l|]; simpl in *; [by rewrite Ho |].
    injection Ho as <-. by rewrite lookup_empty. }
  simpl. destruct (o !! k) as [v|] eqn:E; simpl.
  - by rewrite (lookup_union_Some_l _ _ _ _ E).
  - by rewrite (lookup_union_r _ _ _ E).
Qed.

Lemma Update_reads_like_merged_view_witness :
  ∃ s', Update demo_state (Some 2%positive) (Some 3%positive)
        = Some (Some 2%positive, s') ∧
        GetValue s' demo_base "b"
        = GetValue demo_state (mergeContexts demo_base demo_overlay) "b".
Proof.
  destruct (Update_reads_like_merged_view map_to_list demo_state 2%positive
              (Some 3%positive) {[ "a" := VInt 1 ]}
              (<[ "a" := VInt 2 ]> {[ "b" := VInt 3 ]})) as (s' & H1 & H2).
  - reflexivity.
  - vm_compute. reflexivity.
  - vm_compute. reflexivity.
  - exists s'. split; [exact H1 | apply H2].
Defined.

(** X17. [Update] is idempotent: a second [c.Update(other)] gives the state
    of the first.  Updating a map with itself, with the nil map or with an
    empty map leaves the state as it is. *)
Theorem Update_idempotent
    (order : gmap string value → list (string * value))
    (s : state) (lc : positive) (other : option loc)
    (oc o : gmap string value) :
  (∀ m, order m ≡ₚ map_to_list m) →
  maps s !! lc = Some oc →
  range_entries s other = Some o →
  ∃ s', Update_ordered order s (Some lc) other = Some (Some lc, s') ∧
        Update_ordered order s' (Some lc) other = Some (Some lc, s') ∧
        (other = Some lc ∨ other = None ∨ o = ∅ → s' = s).
Proof.
  intros Hord Hlc Ho.
  rewrite (Update_ordered_closed_form order s lc other oc o Hord Hlc Ho).
  eexists. split; [done |]. split.
  - assert (range_entries (with_maps s (<[lc := o ∪ oc]> (maps s))) other
            = Some (if decide (other = Some lc) then o ∪ oc else o)) as Ho'.
    { destruct other as [l|]; simpl in *.
      - destruct (decide (Some l = Some lc)) as [[= ->]|Hne].
        + by rewrite lookup_insert_eq.
        + rewrite lookup_insert_ne; [done | congruence].
      - injection Ho as <-. try case_decide; done. }
    assert (maps (with_maps s (<[lc := o ∪ oc]> (maps s))) !! lc = Some (o ∪ oc))
      as Hlc' by (simpl; by rewrite lookup_insert_eq).
    rewrite (Update_ordered_closed_form order _ lc other (o ∪ oc) _ Hord Hlc' Ho').
    rewrite with_maps_with_maps. simpl. rewrite insert_insert_eq.
    do 4 f_equal. destruct (decide (other = Some lc)).
    + by rewrite (idemp (∪)).
    + by rewrite (assoc (∪)), (idemp (∪)).
  - intros H. assert (o ∪ oc = oc) as E.
    { destruct H as [-> | [-> | ->]]; simpl in Ho.
      - rewrite Hlc in Ho. injection Ho as <-. by rewrite (idemp (∪)).
      - injection Ho as <-. by rewrite (left_id ∅ (∪)).
      - by rewrite (left_id ∅ (∪)). }
    rewrite E. by apply with_maps_id.
Qed.

Lemma Update_idempotent_witness :
  Update demo_state (Some 2%positive) (Some 2%positive)
  = Some (Some 2%positive, demo_state).
Proof.
  destruct (Update_idempotent map_to_list demo_state 2%positive (Some 2%positive)
              {[ "a" := VInt 1 ]} {[ "a" := VInt 1 ]}) as (s' & H1 & _ & H3).
  - reflexivity.
  - vm_compute. reflexivity.
  - vm_compute. reflexivity.
  - rewrite <- (H3 (or_introl eq_refl)) at 2. exact H1.
Defined.

(** X18. On the nil receiver [Update] returns nil and changes nothing
    when [other] has no entry (nil or empty), and panics as soon as
    [other] has one. *)
Theorem Update_nil_receiver
    (order : gmap string value → list (string * value))
    (s : state) (other : option loc) (o : gmap string value) :
  (∀ m, order m ≡ₚ map_to_list m) →
  range_entries s other = Some o →
  Update_ordered order s None other
  = if decide (o = ∅) then Some (None, s) else None.
Proof.
  intros Hord Ho. unfold Update_ordered. rewrite Ho. simpl.
  rewrite Update_loop_nil_receiver.
  destruct (decide (o = ∅)) as [E|E].
  - apply (order_empty_iff order o Hord) in E. by rewrite E.
  - destruct (order o) eqn:E'; [| done].
    by apply (order_empty_iff order o Hord) in E'.
Qed.

Lemma Update_nil_receiver_witness :
  Update demo_state None None = Some (None, demo_state) ∧
  Update demo_state None (Some 3%positive) = None.
Proof.
  split.
  - unfold Update.
    rewrite (Update_nil_receiver map_to_list demo_state None ∅); reflexivity.
  - unfold Update.
    rewrite (Update_nil_receiver map_to_list demo_state (Some 3%positive)
               (<[ "a" := VInt 2 ]> {[ "b" := VInt 3 ]}));
      [| reflexivity | vm_compute; reflexivity].
    apply decide_False. intros E.
    apply (f_equal (λ m : gmap string value, m !! "a")) in E.
    vm_compute in E. discriminate.
Defined.

(** ** The autoescape default *)

(** X19. After package initialisation and any sequence of [SetAutoescape]
    calls, a new root scope gets the argument of the last call, or true
    when there was none; and [SetAutoescape] changes no read through any
    store. *)
Theorem SetAutoescape_last_wins (Version : string) (bs : list bool)
    (tpl : option loc) (ctx : context) :
  let s := foldl SetAutoescape (init_state Version) bs in
  let r := newExecutionContext s tpl ctx in
  (Autoescape <$> ectxs r.2 !! r.1 = Some (default true (last bs))) ∧
  (∀ s0 b c n, GetValue (SetAutoescape s0 b) c n = GetValue s0 c n).
Proof.
  intros s r. split.
  - assert (autoescape s = default true (last bs)) as <-.
    { unfold s. induction bs as [|b bs IH] using rev_ind; [done |].
      by rewrite foldl_app, last_snoc. }
    destruct r as [p s1] eqn:Er.
    apply newExecutionContext_spec in Er
      as (lp & lo & _ & _ & _ & _ & _ & Hes & _ & _).
    simpl. by rewrite Hes, lookup_insert_eq.
  - intros s0 b c n. by apply GetValue_frame.
Qed.

(** ** Nesting of merged views *)

(** X20. Nesting of views is associative for every operation: the views
    [mergeContexts(mergeContexts(a, b), c)] and
    [mergeContexts(a, mergeContexts(b, c))] read every key alike, panics
    included, write alike and have the same listings. *)
Theorem mergeContexts_assoc (s : state) (a b c : context) :
  (∀ k, GetValue s (mergeContexts (mergeContexts a b) c) k
        = GetValue s (mergeContexts a (mergeContexts b c)) k) ∧
  (∀ k v, SetValue s (mergeContexts (mergeContexts a b) c) k v
          = SetValue s (mergeContexts a (mergeContexts b c)) k v) ∧
  (∀ ids, GetIdentifiers s (mergeContexts (mergeContexts a b) c) ids
          ↔ GetIdentifiers s (mergeContexts a (mergeContexts b c)) ids).
Proof.
  split_and!.
  - intros k. simpl.
    destruct (GetValue s c k) as [[vc [|]]|]; simpl; [done | | done].
    destruct (GetValue s b k) as [[vb [|]]|]; simpl; done.
  - done.
  - intros ids. rewrite !GetIdentifiers_merged_iff. split.
    + intros (lab & lc & (la & lb & Ha & Hb & ->)%GetIdentifiers_merged_iff & Hc & ->).
      exists la, (lb ++ lc). split_and!; [done | | by rewrite app_assoc].
      apply GetIdentifiers_merged_iff. by exists lb, lc.
    + intros (la & lbc & Ha & (lb & lc & Hb & Hc & ->)%GetIdentifiers_merged_iff & ->).
      exists (la ++ lb), lc. split_and!; [| done | by rewrite app_assoc].
      apply GetIdentifiers_merged_iff. by exists la, lb.
Qed.
